(** * bhe-enclave: the UART deframer, its outbound ring and the misc device

    A shallow embedding of [sysdrv/drv_ko/bhe-enclave/bhe-enclave.c]:
    the receive callback [uart_receive_buf] (accumulate, resynchronise,
    deframe, dispatch), the ring buffer it shares with [uart_misc_read],
    the pass-through [uart_misc_write] and the two sysfs attributes.

    Conventions.
    - A [char] is a [byte]; the arrays [rx_buffer] and [uart_buffer] are
      lists of bytes whose length is the declared array size.
    - The [size_t] globals [rx_buffer_pos], [buffer_head], [buffer_tail]
      are [nat]: the code keeps them at most 2048, far from any wrap.
    - Values decoded from the wire and values returned to callers are [Z].
    - [printk], [wake_up_interruptible] and the hand-over of a frame to the
      type switch are recorded as a list of [event]s returned next to the
      new state; they are observations, not C state. *)

From Stdlib Require Import ZArith List Lia Bool Arith PeanoNat ZifyNat.
From coqutil Require Import Byte Word.LittleEndianList.
From coqutil Require Datatypes.List.
From Stdlib Require String Ascii DecimalString.
Import ListNotations.
Import Init.Byte.

(** * The program *)

(** ** Constants of the driver *)

Definition PACKET_SIGNATURE : Z := 0xBADF00D%Z.
Definition BUF_SIZE : nat := 2048.
Definition RX_BUFFER_SIZE : nat := 2048.
Definition HEADER_SIZE : nat := 8.

(** Error numbers of the kernel headers the driver returns negated
    (include/uapi/asm-generic/errno-base.h, include/linux/errno.h). *)
Definition EAGAIN : Z := 11.
Definition ENOMEM : Z := 12.
Definition EFAULT : Z := 14.
Definition ERESTARTSYS : Z := 512.

(** ** Global state *)

(** The globals the receive path shares with readers: the ring under
    [buffer_lock] and the two mirrored status bytes. *)
Record shared := mkShared {
  uart_buffer : list byte;
  buffer_head : nat;
  buffer_tail : nat;
  root_state : byte;
  version : byte
}.

(** All globals: the staging array and its fill level belong to the
    receive callback alone. *)
Record state := mkState {
  rx_buffer : list byte;
  rx_buffer_pos : nat;
  sh : shared
}.

(** Module initialisation: zeroed arrays and counters. *)
Definition init_shared : shared :=
  mkShared (repeat x00 BUF_SIZE) 0 0 x00 x00.
Definition init_state : state :=
  mkState (repeat x00 RX_BUFFER_SIZE) 0 init_shared.

(** ** Observations *)

Inductive loglevel := KERN_ERR | KERN_WARNING | KERN_INFO.

Inductive kmsg :=
| InvalidParams          (* "Invalid receive_buf parameters" *)
| RxOverflow             (* "Receive buffer overflow" *)
| BadSignature           (* "Invalid packet signature, discarding byte" *)
| StateUpdateReceived    (* "State Update Packet Received" *)
| RootStateIs (r : byte) (* "Root State: %u" *)
| VersionIs (v : byte)   (* "Version: %u" *)
| PayloadTooSmall        (* "State Update packet payload too small" *)
| Unhandled (packet_type : Z) (* "Unhandled packet type: 0x%04X" *)
| QueueOverflow.         (* "UART buffer overflow, dropping data" *)

Definition level (m : kmsg) : loglevel :=
  match m with
  | InvalidParams | RxOverflow | PayloadTooSmall => KERN_ERR
  | BadSignature | QueueOverflow => KERN_WARNING
  | StateUpdateReceived | RootStateIs _ | VersionIs _ | Unhandled _ => KERN_INFO
  end.

Inductive event :=
| Printk (m : kmsg)
| Handed (packet_type : Z) (payload : list byte)
  (* a complete frame reaches the type switch (line 101) *)
| WakeUp. (* wake_up_interruptible(&uart_wait_queue) *)

(** ** Memory primitives *)

(** [*(uintN_t * )(mem + off)] read little-endian, N = 8 * n. *)
Definition load_le (n off : nat) (mem : list byte) : Z :=
  le_combine (firstn n (skipn off mem)).

(** [memcpy(&mem[dst], data, length data)].  A copy that would run past
    the end of [mem] is cut off there; the overflow guard of the callback
    keeps every copy inside the array ([memcpy_staged]). *)
Definition memcpy (mem : list byte) (dst : nat) (data : list byte) : list byte :=
  List.upds mem dst data.

(** [memmove(&mem[dst], &mem[src], n)]. *)
Definition memmove (mem : list byte) (dst src n : nat) : list byte :=
  List.upds mem dst (firstn n (skipn src mem)).

(** ** Outbound ring, producer side (lines 116-123) *)

Definition enqueue_byte (b : byte) (d : shared) : list event * shared :=
  let buf := List.upd (uart_buffer d) (buffer_head d) b in
  let head := (buffer_head d + 1) mod BUF_SIZE in
  if head =? buffer_tail d
  then ([Printk QueueOverflow],
        mkShared buf head ((buffer_tail d + 1) mod BUF_SIZE)
                 (root_state d) (version d))
  else ([], mkShared buf head (buffer_tail d) (root_state d) (version d)).

(** The [for] loop over the staging array: [n] iterations from index [i]
    on (the source starts at 0 and runs to [HEADER_SIZE + payload_size]). *)
Fixpoint enqueue_loop (rx : list byte) (i n : nat) (d : shared)
  : list event * shared :=
  match n with
  | 0 => ([], d)
  | S n' =>
      let (e1, d1) := enqueue_byte (nth i rx x00) d in
      let (e2, d2) := enqueue_loop rx (S i) n' d1 in
      (e1 ++ e2, d2)
  end.

(** ** Type switch (lines 103-126) *)

Definition dispatch (packet_type : Z) (payload_size : nat)
           (rx : list byte) (d : shared) : list event * shared :=
  if (packet_type =? 4)%Z then
    if 2 <=? payload_size then
      let r := nth HEADER_SIZE rx x00 in
      let v := nth (HEADER_SIZE + 1) rx x00 in
      ([Printk StateUpdateReceived; Printk (RootStateIs r); Printk (VersionIs v)],
       mkShared (uart_buffer d) (buffer_head d) (buffer_tail d) r v)
    else ([Printk PayloadTooSmall], d)
  else
    let (evs, d') := enqueue_loop rx 0 (HEADER_SIZE + payload_size) d in
    (Printk (Unhandled packet_type) :: evs ++ [WakeUp], d').

(** ** Deframing loop (lines 86-130) *)

(** One iteration of [while (rx_buffer_pos >= HEADER_SIZE)]; [None] when
    the loop is left, by its condition or by [break]. *)
Definition loop_body (s : state) : option (list event * state) :=
  let rx := rx_buffer s in
  let pos := rx_buffer_pos s in
  if pos <? HEADER_SIZE then None
  else
    let signature := load_le 4 0 rx in
    if negb (signature =? PACKET_SIGNATURE)%Z then
      Some ([Printk BadSignature],
            mkState (memmove rx 0 1 (pos - 1)) (pos - 1) (sh s))
    else
      let packet_type := load_le 2 4 rx in
      let payload_size := Z.to_nat (load_le 2 6 rx) in
      if pos <? HEADER_SIZE + payload_size then None
      else
        let payload := firstn payload_size (skipn HEADER_SIZE rx) in
        let (evs, d) := dispatch packet_type payload_size rx (sh s) in
        let n := HEADER_SIZE + payload_size in
        Some (Handed packet_type payload :: evs,
              mkState (memmove rx 0 n (pos - n)) (pos - n) d).

(** The loop.  Every iteration that continues removes at least one staged
    byte, so with [fuel] at least [rx_buffer_pos] the loop is left by its
    own condition or [break] ([deframe_loop_done]) and more fuel changes
    nothing ([deframe_loop_fuel]). *)
Fixpoint deframe_loop (fuel : nat) (s : state) : list event * state :=
  match fuel with
  | 0 => ([], s)
  | S fuel' =>
      match loop_body s with
      | None => ([], s)
      | Some (e1, s1) =>
          let (e2, s2) := deframe_loop fuel' s1 in (e1 ++ e2, s2)
      end
  end.

(** ** The receive callback (lines 65-133) *)

Record outcome := mkOutcome {
  ret : Z;
  trace : list event;
  after : state
}.

(** [data] stands for the pair (data, count) with count = [length data];
    a null [data] is not a byte list and is left out.  The sum
    [rx_buffer_pos + count] cannot wrap: the fill level is at most 2048 and
    a chunk is shorter than the address space.  The loop gets as much fuel
    as there are staged bytes, which is enough for it to end by itself. *)
Definition uart_receive_buf (data : list byte) (s : state) : outcome :=
  let count := length data in
  if count =? 0 then mkOutcome 0 [Printk InvalidParams] s
  else if RX_BUFFER_SIZE <? rx_buffer_pos s + count then
    mkOutcome 0 [Printk RxOverflow] (mkState (rx_buffer s) 0 (sh s))
  else
    let rx := memcpy (rx_buffer s) (rx_buffer_pos s) data in
    let pos := rx_buffer_pos s + count in
    let (evs, s') := deframe_loop pos (mkState rx pos (sh s)) in
    mkOutcome (Z.of_nat count) evs s'.

(** ** Consumer side: [uart_misc_read] (lines 135-156) *)

(** One iteration of the copy loop past [put_user]:
    the byte at [buffer_tail] leaves, the tail advances. *)
Definition dequeue_byte (d : shared) : byte * shared :=
  (nth (buffer_tail d) (uart_buffer d) x00,
   mkShared (uart_buffer d) (buffer_head d)
            ((buffer_tail d + 1) mod BUF_SIZE) (root_state d) (version d)).

Record read_result := mkRead {
  r_ret : Z;             (* the ssize_t returned *)
  r_user : list byte;    (* what reached the caller's buffer *)
  r_after : shared
}.

(** [while (buffer_head != buffer_tail && bytes_read < count)], by
    recursion on [count - bytes_read] ([todo]); [fault i] tells whether
    [put_user] fails on [&buf[i]]. *)
Fixpoint read_loop (todo : nat) (fault : nat -> bool) (bytes_read : nat)
         (d : shared) : read_result :=
  match todo with
  | 0 => mkRead (Z.of_nat bytes_read) [] d
  | S todo' =>
      if buffer_head d =? buffer_tail d then mkRead (Z.of_nat bytes_read) [] d
      else if fault bytes_read then mkRead (- EFAULT) [] d
      else
        let (b, d') := dequeue_byte d in
        let r := read_loop todo' fault (S bytes_read) d' in
        mkRead (r_ret r) (b :: r_user r) (r_after r)
  end.

(** What [wait_event_interruptible] can do to a sleeping reader: the
    producer made the condition true and left the shared state [d'], or a
    signal arrived first. *)
Inductive wait_outcome :=
| Woken (d' : shared)
| Interrupted.

Definition wait_event_interruptible (w : wait_outcome) (d : shared)
  : Z * shared :=
  match w with
  | Woken d' => (0%Z, d')
  | Interrupted => ((- ERESTARTSYS)%Z, d)
  end.

(** [nonblock] is [file->f_flags & O_NONBLOCK].  The value of
    [wait_event_interruptible] is dropped, as in the source. *)
Definition uart_misc_read (nonblock : bool) (count : nat)
           (fault : nat -> bool) (w : wait_outcome) (d : shared)
  : read_result :=
  if buffer_head d =? buffer_tail d then
    if nonblock then mkRead (- EAGAIN) [] d
    else
      let (_, d1) := wait_event_interruptible w d in
      read_loop count fault 0 d1
  else read_loop count fault 0 d.

(** ** The write path: [uart_misc_write] (lines 158-185) *)

(** Conversion of an [int] or a [size_t] to [size_t]; [BITS_PER_LONG] is
    the width of [size_t] and [ssize_t]: 32 on the RV1106, 64 on a 64-bit
    kernel ([int] has 32 bits on both). *)
Definition to_size_t (BITS_PER_LONG : Z) (z : Z) : Z :=
  (z mod 2 ^ BITS_PER_LONG)%Z.

(** Conversion of a [size_t] to the [ssize_t] returned. *)
Definition to_ssize_t (BITS_PER_LONG : Z) (z : Z) : Z :=
  ((z + 2 ^ (BITS_PER_LONG - 1)) mod 2 ^ BITS_PER_LONG
   - 2 ^ (BITS_PER_LONG - 1))%Z.

Record write_result := mkWrite {
  w_ret : Z;                  (* the ssize_t returned *)
  w_sent : list (list byte)   (* the calls of serdev_device_write_buf *)
}.

(** [kmalloc_ok]: the allocation for more than 128 bytes succeeds;
    [copy_ok]: [copy_from_user] copies everything;
    [serdev_device_write_buf]: what the transport answers for a buffer.
    The value returned is [ret < 0 ? ret : count] with the conversions of
    its operands to [size_t] and of the result to [ssize_t]. *)
Definition uart_misc_write (BITS_PER_LONG : Z) (kmalloc_ok copy_ok : bool)
           (serdev_device_write_buf : list byte -> Z) (buf : list byte)
  : write_result :=
  let count := length buf in
  if count =? 0 then mkWrite 0 []
  else if (128 <? count) && negb kmalloc_ok then mkWrite (- ENOMEM) []
  else if negb copy_ok then mkWrite (- EFAULT) []
  else
    let ret := serdev_device_write_buf buf in
    mkWrite (to_ssize_t BITS_PER_LONG
               (if (ret <? 0)%Z then to_size_t BITS_PER_LONG ret
                else to_size_t BITS_PER_LONG (Z.of_nat count)))
            [buf].

(** ** The sysfs attributes (lines 40-46) *)

(** ["%u\n"] of one byte, as [scnprintf] writes it for the two read-only
    attributes (the page is far longer than four characters). *)
Definition show_u (b : byte) : String.string :=
  String.append (DecimalString.NilZero.string_of_uint
                   (N.to_uint (Byte.to_N b)))
                (String.String (Ascii.ascii_of_nat 10) String.EmptyString).

Definition root_state_show (d : shared) : String.string :=
  show_u (root_state d).

Definition version_show (d : shared) : String.string :=
  show_u (version d).

(** * Notions used by the statements *)

(** ** Runs of the receive callback *)

(** A run of the callback over successive chunks. *)
Fixpoint feed_all (chunks : list (list byte)) (s : state)
  : list event * state :=
  match chunks with
  | [] => ([], s)
  | c :: cs =>
      let o := uart_receive_buf c s in
      let (evs, s') := feed_all cs (after o) in
      (trace o ++ evs, s')
  end.

(** The frames handed to the type switch, in order. *)
Fixpoint handed (evs : list event) : list (Z * list byte) :=
  match evs with
  | [] => []
  | Handed t p :: evs' => (t, p) :: handed evs'
  | _ :: evs' => handed evs'
  end.

(** No call of the run hits the overflow guard. *)
Fixpoint no_overflow (chunks : list (list byte)) (s : state) : bool :=
  match chunks with
  | [] => true
  | c :: cs =>
      (rx_buffer_pos s + length c <=? RX_BUFFER_SIZE)
      && no_overflow cs (after (uart_receive_buf c s))
  end.

(** One byte per call. *)
Definition bytewise (l : list byte) : list (list byte) :=
  map (fun b => [b]) l.

(** ** Wire format *)

Record frame := mkFrame {
  f_type : Z;
  f_payload : list byte
}.

Definition well_formed (f : frame) : Prop :=
  (0 <= f_type f < 2 ^ 16)%Z /\ (Z.of_nat (length (f_payload f)) < 2 ^ 16)%Z.

Definition encode (f : frame) : list byte :=
  le_split 4 PACKET_SIGNATURE ++ le_split 2 (f_type f)
  ++ le_split 2 (Z.of_nat (length (f_payload f))) ++ f_payload f.

(** No four consecutive bytes of [g] read as the signature. *)
Definition garbage (g : list byte) : bool :=
  forallb (fun i => negb (load_le 4 i g =? PACKET_SIGNATURE)%Z)
          (seq 0 (length g - 3)).

(** ** The staged bytes *)

(** The part of [rx_buffer] that holds data: its first [rx_buffer_pos]
    bytes.  What lies beyond is stale and never read. *)
Definition staged (s : state) : list byte :=
  firstn (rx_buffer_pos s) (rx_buffer s).

(** The fill level stays inside the array. *)
Definition fits (s : state) : Prop :=
  rx_buffer_pos s <= length (rx_buffer s).

(** The array has its declared size. *)
Definition stage_ok (s : state) : Prop :=
  length (rx_buffer s) = RX_BUFFER_SIZE /\ rx_buffer_pos s <= RX_BUFFER_SIZE.

(** A state whose array is exactly the staged bytes. *)
Definition tight (l : list byte) (d : shared) : state :=
  mkState l (length l) d.

(** The loop body seen on the staged bytes alone. *)
Definition scan (l : list byte) (d : shared)
  : option (list event * list byte * shared) :=
  match loop_body (tight l d) with
  | None => None
  | Some (e, s') => Some (e, staged s', sh s')
  end.

(** Iterating [scan] until it stops. *)
Inductive drain : list byte -> shared -> list event -> list byte -> shared -> Prop :=
| drain_stop l d :
    scan l d = None -> drain l d [] l d
| drain_step l d e l1 d1 es l2 d2 :
    scan l d = Some (e, l1, d1) ->
    drain l1 d1 es l2 d2 ->
    drain l d (e ++ es) l2 d2.

(** ** Delivery of frames *)

(** What the type switch does with one frame, and with a sequence. *)
Definition deliver (f : frame) (d : shared) : list event * shared :=
  dispatch (f_type f) (length (f_payload f)) (encode f) d.

Fixpoint deliver_all (fs : list frame) (d : shared) : list event * shared :=
  match fs with
  | [] => ([], d)
  | f :: fs' =>
      let (e1, d1) := deliver f d in
      let (e2, d2) := deliver_all fs' d1 in
      ((Handed (f_type f) (f_payload f) :: e1) ++ e2, d2)
  end.

(** ** The bytes the ring holds *)

Definition ring_ok (d : shared) : Prop :=
  length (uart_buffer d) = BUF_SIZE
  /\ buffer_head d < BUF_SIZE /\ buffer_tail d < BUF_SIZE.

(** Number of unread bytes: the distance from tail to head. *)
Definition unread (d : shared) : nat :=
  (buffer_head d + BUF_SIZE - buffer_tail d) mod BUF_SIZE.

(** The unread bytes, oldest first. *)
Definition ring_contents (d : shared) : list byte :=
  map (fun k => nth ((buffer_tail d + k) mod BUF_SIZE) (uart_buffer d) x00)
      (seq 0 (unread d)).

(** The newest [BUF_SIZE - 1] bytes of a stream. *)
Definition keep_last (l : list byte) : list byte :=
  skipn (length l - (BUF_SIZE - 1)) l.

(** A sequence of enqueue operations, one [for] loop per forwarded frame. *)
Fixpoint enqueue_all (ops : list (list byte)) (d : shared) : shared :=
  match ops with
  | [] => d
  | bs :: ops' => enqueue_all ops' (snd (enqueue_loop bs 0 (length bs) d))
  end.

Definition ring_inv (d : shared) : Prop :=
  ring_ok d
  /\ (buffer_head d = buffer_tail d <-> ring_contents d = [])
  /\ length (ring_contents d) <= BUF_SIZE - 1.

(** ** Two claims as the specification words them *)

(** The claim without a condition on overflow. *)
Definition resync_unconditional : Prop :=
  forall (g : list byte) (f : frame) (chunks : list (list byte)),
    garbage g = true -> well_formed f ->
    concat chunks = g ++ encode f ->
    handed (fst (feed_all chunks init_state)) = [(f_type f, f_payload f)]
    /\ rx_buffer_pos (snd (feed_all chunks init_state)) = 0.

(** The claim as stated: the transport is always called once with the
    whole buffer and its answer is what the write returns. *)
Definition write_returns_transport_answer : Prop :=
  forall (kmalloc_ok copy_ok : bool) (send : list byte -> Z) (buf : list byte),
    buf <> [] ->
    (- 2 ^ 31 <= send buf < 2 ^ 31)%Z ->
    let r := uart_misc_write 32 kmalloc_ok copy_ok send buf in
    w_sent r = [buf] /\ w_ret r = send buf.

(** ** Sample data *)

Definition sample_frame : frame := mkFrame 7 [x61; x62; x63].

Definition state_update_12 : frame := mkFrame 4 [x01; x02].

Definition short_update : frame := mkFrame 4 [x09].

Definition noise : list byte := [x0d; xf0; xad; xff; x0d; xf0; x0d; xf0; xad].

(** The state after the first nine bytes of [sample_frame] have arrived. *)
Definition half_fed : state :=
  after (uart_receive_buf (firstn 9 (encode sample_frame)) init_state).

(** The state at loop entry when [data] arrives in the first call. *)
Definition first_call (data : list byte) : state :=
  mkState (memcpy (rx_buffer init_state) 0 data) (length data) init_shared.

Definition burst : list (list byte) := [repeat x01 60; repeat x02 2040].

(** * The rest of the driver *)

(** ** Probe and remove (lines 206-300) *)

Definition ENODEV : Z := 19.
Definition ENOTSUPP : Z := 524.

(** The address of UART3, the only port the driver accepts (line 226). *)
Definition UART3_BASE : Z := 0xff4d0000%Z.

(** The kernel objects [my_module_probe] creates and [uart_serdev_remove]
    gives back. *)
Inductive resource :=
| EnclaveClass   (* class_create / class_destroy *)
| SysfsDevice    (* device_create / device_destroy *)
| AttrGroup      (* sysfs_create_group / sysfs_remove_group *)
| SerdevPort     (* serdev_device_open / serdev_device_close *)
| MiscDevice.    (* misc_register / misc_deregister *)

(** The kernel calls with an effect; a call that fails has none and is
    not recorded. *)
Inductive kcall :=
| Acquire (r : resource)
| Release (r : resource)
| DevSetDrvdata
| SetClientOps
| SetBaudrate (rate : Z)
| InitWaitqueueHead.

(** What the kernel answers during one probe: the shape of the serdev
    device and the result of each call that can fail.  A pointer result is
    [None] for a valid pointer and [Some e] for [ERR_PTR(e)]; an [int]
    result is 0 for success. *)
Record probe_env := mkEnv {
  has_ctrl : bool;               (* serdev->ctrl *)
  mem_start : option Z;          (* platform_get_resource(...)->start *)
  has_ops : bool;                (* ctrl->ops *)
  has_set_baudrate : bool;       (* ctrl->ops->set_baudrate *)
  class_create : option Z;
  device_create : option Z;
  sysfs_create_group : Z;
  serdev_device_open : Z;
  misc_register : Z
}.

Record probe_result := mkProbe {
  p_ret : Z;
  p_calls : list kcall;
  p_serdev_device : nat   (* the global [serdev_device] afterwards *)
}.

(** [serdev] names the device probed; the global is assigned before any
    check. *)
Definition my_module_probe (serdev : nat) (baud_rate : Z) (env : probe_env)
  : probe_result :=
  let done r calls := mkProbe r calls serdev in
  if negb (has_ctrl env) then done (- ENODEV)%Z []
  else
    match mem_start env with
    | None => done (- ENODEV)%Z []
    | Some start =>
        if negb (start =? UART3_BASE)%Z then done (- ENODEV)%Z []
        else if negb (has_ops env) then done (- ENODEV)%Z []
        else if negb (has_set_baudrate env) then done (- ENOTSUPP)%Z []
        else
          match class_create env with
          | Some e => done e []
          | None =>
              match device_create env with
              | Some e =>
                  done e [Acquire EnclaveClass; Release EnclaveClass]
              | None =>
                  let c1 := [Acquire EnclaveClass; Acquire SysfsDevice;
                             DevSetDrvdata] in
                  if negb (sysfs_create_group env =? 0)%Z then
                    done (sysfs_create_group env)
                         (c1 ++ [Release SysfsDevice; Release EnclaveClass])
                  else
                    let c2 := c1 ++ [Acquire AttrGroup; SetClientOps] in
                    if negb (serdev_device_open env =? 0)%Z then
                      done (serdev_device_open env)
                           (c2 ++ [Release AttrGroup; Release SysfsDevice;
                                   Release EnclaveClass])
                    else
                      let c3 := c2 ++ [Acquire SerdevPort;
                                       SetBaudrate baud_rate;
                                       InitWaitqueueHead] in
                      if negb (misc_register env =? 0)%Z then
                        done (misc_register env)
                             (c3 ++ [Release SerdevPort; Release AttrGroup;
                                     Release SysfsDevice;
                                     Release EnclaveClass])
                      else done 0%Z (c3 ++ [Acquire MiscDevice])
              end
          end
    end.

Definition uart_serdev_remove : list kcall :=
  [Release MiscDevice; Release SerdevPort; Release AttrGroup;
   Release SysfsDevice; Release EnclaveClass].

(** ** Notions for the further properties *)

Definition resource_eqb (a b : resource) : bool :=
  match a, b with
  | EnclaveClass, EnclaveClass | SysfsDevice, SysfsDevice
  | AttrGroup, AttrGroup | SerdevPort, SerdevPort
  | MiscDevice, MiscDevice => true
  | _, _ => false
  end.

(** The objects held after a sequence of calls, newest first; [None] when
    an object is released that is not the newest one held. *)
Fixpoint held_from (stack : list resource) (calls : list kcall)
  : option (list resource) :=
  match calls with
  | [] => Some stack
  | Acquire r :: calls' => held_from (r :: stack) calls'
  | Release r :: calls' =>
      match stack with
      | top :: stack' =>
          if resource_eqb r top then held_from stack' calls' else None
      | [] => None
      end
  | _ :: calls' => held_from stack calls'
  end.

Definition held (calls : list kcall) : option (list resource) :=
  held_from [] calls.

(** Every call that can fail succeeds. *)
Definition all_succeed (env : probe_env) : bool :=
  match class_create env, device_create env with
  | None, None =>
      (sysfs_create_group env =? 0)%Z && (serdev_device_open env =? 0)%Z
      && (misc_register env =? 0)%Z
  | _, _ => false
  end.

(** The device is the UART3 port with a controller that can set the baud
    rate. *)
Definition accepted (env : probe_env) : bool :=
  has_ctrl env
  && match mem_start env with
     | Some start => (start =? UART3_BASE)%Z
     | None => false
     end
  && has_ops env && has_set_baudrate env.

(** An error pointer carries a non-zero error number. *)
Definition env_ok (env : probe_env) : Prop :=
  class_create env <> Some 0%Z /\ device_create env <> Some 0%Z.

(** The frame a handed pair stands for. *)
Definition frame_of (h : Z * list byte) : frame := mkFrame (fst h) (snd h).

(** A handed frame whose encoding fits the staging array. *)
Definition fits_staging (h : Z * list byte) : Prop :=
  well_formed (frame_of h)
  /\ HEADER_SIZE + length (snd h) <= RX_BUFFER_SIZE.

(** The type switch forwards a handed frame unless its type is 0x0004. *)
Definition not_state_update (h : Z * list byte) : bool :=
  negb (fst h =? 4)%Z.

(** The bytes the type switch forwards to the ring for a list of handed
    frames: every frame that is not a state update, whole. *)
Definition forwarded (hs : list (Z * list byte)) : list byte :=
  concat (map (fun h => encode (frame_of h)) (filter not_state_update hs)).

(** The mirror after a handed frame: a state update of at least two bytes
    overwrites it. *)
Definition mirror_step (m : byte * byte) (h : Z * list byte) : byte * byte :=
  if (fst h =? 4)%Z then
    match snd h with
    | r :: v :: _ => (r, v)
    | _ => m
    end
  else m.

Definition mirror_after (hs : list (Z * list byte)) (m : byte * byte)
  : byte * byte :=
  fold_left mirror_step hs m.

Definition mirror (d : shared) : byte * byte := (root_state d, version d).

(** Wake-ups and discarded bytes along a trace. *)
Fixpoint wakeups (evs : list event) : nat :=
  match evs with
  | [] => 0
  | WakeUp :: evs' => S (wakeups evs')
  | _ :: evs' => wakeups evs'
  end.

Fixpoint discarded (evs : list event) : nat :=
  match evs with
  | [] => 0
  | Printk BadSignature :: evs' => S (discarded evs')
  | _ :: evs' => discarded evs'
  end.

(** Overflow warnings of the ring along a trace. *)
Fixpoint drops (evs : list event) : nat :=
  match evs with
  | [] => 0
  | Printk QueueOverflow :: evs' => S (drops evs')
  | _ :: evs' => drops evs'
  end.

(** Bytes that left the staging array inside handed frames. *)
Definition delivered_bytes (hs : list (Z * list byte)) : nat :=
  list_sum (map (fun h => HEADER_SIZE + length (snd h)) hs).

(** A header in front that announces more than the staging array can
    ever hold. *)
Definition stalled (l : list byte) : Prop :=
  HEADER_SIZE <= length l
  /\ load_le 4 0 l = PACKET_SIGNATURE
  /\ RX_BUFFER_SIZE < HEADER_SIZE + Z.to_nat (load_le 2 6 l).

(** The decimal number an attribute text starts with. *)
Definition parse_u (s : String.string) : option N :=
  match s with
  | String.EmptyString => None
  | _ =>
      option_map N.of_uint
        (DecimalString.NilZero.uint_of_string
           (String.substring 0 (String.length s - 1) s))
  end.

(** First index at which [put_user] faults is [k]. *)
Definition first_fault (fault : nat -> bool) (k : nat) : Prop :=
  fault k = true /\ forall i, i < k -> fault i = false.

(** ** More sample data *)

(** Chunks of every kind: an empty call, garbage split over two calls
    before a frame, a state update, a malformed one, a frame cut in two. *)
Definition mixed_run : list (list byte) :=
  [[]; firstn 5 noise; skipn 5 noise ++ encode sample_frame;
   encode state_update_12; encode short_update;
   firstn 3 (encode sample_frame); skipn 3 (encode sample_frame)].

(** A header that announces 65535 payload bytes. *)
Definition bogus_header : list byte :=
  [x0d; xf0; xad; x0b; x07; x00; xff; xff].

Definition stalled_state : state :=
  after (uart_receive_buf bogus_header init_state).

(** The largest frame the staging array can hold: 2048 bytes. *)
Definition max_frame : frame := mkFrame 7 (repeat x2a 2040).

(** A probe of UART3 in which every call succeeds, and one in which
    opening the port fails with [-EBUSY]. *)
Definition uart3_env : probe_env :=
  mkEnv true (Some UART3_BASE) true true None None 0 0 0.

Definition uart3_open_fails : probe_env :=
  mkEnv true (Some UART3_BASE) true true None None 0 (-16) 0.

(** * Proofs *)

Ltac mod_lia := zify; Z.to_euclidean_division_equations; lia.

Example encode_sample :
  encode sample_frame
  = [x0d; xf0; xad; x0b; x07; x00; x03; x00; x61; x62; x63].
Proof. reflexivity. Qed.

Example feed_sample :
  let o := uart_receive_buf (encode sample_frame) init_state in
  ret o = 11%Z /\ handed (trace o) = [(7%Z, [x61; x62; x63])]
  /\ rx_buffer_pos (after o) = 0 /\ buffer_head (sh (after o)) = 11.
Proof. vm_compute. repeat split. Qed.

(** A frame of an unhandled type comes out of the reader whole. *)
Example read_after_feed :
  let d := sh (after (uart_receive_buf (encode sample_frame) init_state)) in
  let r := uart_misc_read true 64 (fun _ => false) Interrupted d in
  r_ret r = 11%Z /\ r_user r = encode sample_frame
  /\ buffer_head (r_after r) = buffer_tail (r_after r).
Proof. vm_compute. repeat split. Qed.

(** ** The staging array *)

(** Two arrays with the same first [m] bytes are read alike below [m]. *)
Section Agree.
Variables a b : list byte.
Variable m : nat.
Hypothesis Hagree : firstn m a = firstn m b.

Lemma slice_agree n off :
  n + off <= m -> firstn n (skipn off a) = firstn n (skipn off b).
Proof.
  intros H. rewrite !firstn_skipn_comm.
  replace (off + n) with (Nat.min (off + n) m) by lia.
  rewrite <- !firstn_firstn. now rewrite Hagree.
Qed.

Lemma load_le_agree n off :
  n + off <= m -> load_le n off a = load_le n off b.
Proof. intros H. unfold load_le. now rewrite (slice_agree n off H). Qed.

Lemma nth_agree i :
  i < m -> nth i a x00 = nth i b x00.
Proof.
  intros H.
  assert (E : nth i (firstn m a) x00 = nth i (firstn m b) x00) by now rewrite Hagree.
  rewrite !nth_firstn in E. apply Nat.ltb_lt in H. now rewrite H in E.
Qed.

Lemma enqueue_loop_agree n : forall i d,
  i + n <= m -> enqueue_loop a i n d = enqueue_loop b i n d.
Proof.
  induction n as [|n IH]; intros i d H; cbn [enqueue_loop]; [reflexivity|].
  rewrite (nth_agree i) by lia.
  destruct (enqueue_byte (nth i b x00) d) as [e1 d1].
  now rewrite IH by lia.
Qed.

Lemma dispatch_agree t n d :
  HEADER_SIZE + n <= m -> dispatch t n a d = dispatch t n b d.
Proof.
  intros H. unfold dispatch, HEADER_SIZE in *.
  destruct (t =? 4)%Z.
  - destruct (2 <=? n) eqn:E; [|reflexivity].
    apply Nat.leb_le in E.
    now rewrite (nth_agree 8), (nth_agree (8 + 1)) by lia.
  - now rewrite (enqueue_loop_agree (8 + n) 0 d) by lia.
Qed.

End Agree.

Lemma length_memmove rx dst src n : length (memmove rx dst src n) = length rx.
Proof. apply List.upds_length. Qed.

Lemma length_memcpy rx dst data : length (memcpy rx dst data) = length rx.
Proof. apply List.upds_length. Qed.

(** Moving the staged tail to the front drops the first [k] staged bytes. *)
Lemma memmove_front rx k p :
  k <= p -> p <= length rx ->
  firstn (p - k) (memmove rx 0 k (p - k)) = skipn k (firstn p rx).
Proof.
  intros Hk Hp. unfold memmove, List.upds.
  rewrite skipn_firstn_comm.
  set (X := firstn (p - k) (skipn k rx)).
  assert (HX : length X = p - k)
    by (unfold X; rewrite length_firstn, length_skipn; lia).
  cbn [firstn app]. rewrite (firstn_all2 (n := length rx - 0)) by lia.
  rewrite firstn_app, (firstn_all2 (n := p - k)) by lia.
  replace (p - k - length X) with 0 by lia.
  cbn [firstn]. apply app_nil_r.
Qed.

(** Appending a chunk behind the staged bytes. *)
Lemma memcpy_staged rx p data :
  p + length data <= length rx ->
  firstn (p + length data) (memcpy rx p data) = firstn p rx ++ data.
Proof.
  intros H. unfold memcpy, List.upds.
  rewrite (firstn_all2 (n := length rx - p)) by lia.
  rewrite app_assoc, firstn_app.
  assert (L : length (firstn p rx ++ data) = p + length data)
    by (rewrite length_app, length_firstn; lia).
  rewrite firstn_all2 by lia.
  replace (p + length data - length (firstn p rx ++ data)) with 0 by lia.
  cbn [firstn]. apply app_nil_r.
Qed.

Lemma length_staged s : fits s -> length (staged s) = rx_buffer_pos s.
Proof. unfold fits, staged. intros H. rewrite length_firstn. lia. Qed.

Lemma stage_ok_fits s : stage_ok s -> fits s.
Proof. unfold stage_ok, fits. lia. Qed.

Lemma staged_tight l d : staged (tight l d) = l.
Proof. unfold staged, tight. cbn. apply firstn_all. Qed.

Lemma fits_tight l d : fits (tight l d).
Proof. unfold fits, tight. cbn. lia. Qed.

Lemma stage_ok_init : stage_ok init_state.
Proof. split; [reflexivity | cbn; unfold RX_BUFFER_SIZE; lia]. Qed.

Lemma staged_empty s : rx_buffer_pos s = 0 -> staged s = [].
Proof. unfold staged. now intros ->. Qed.

(** ** The loop body on the staged bytes *)

(** The loop body reads the staged bytes only, and what it does to them
    is not disturbed by bytes staged behind them. *)
Lemma loop_body_mono s t c e s' :
  fits s -> fits t ->
  staged t = staged s ++ c -> sh t = sh s ->
  loop_body s = Some (e, s') ->
  exists t', loop_body t = Some (e, t')
             /\ staged t' = staged s' ++ c /\ sh t' = sh s'
             /\ fits s' /\ fits t'
             /\ rx_buffer_pos s' < rx_buffer_pos s
             /\ length (rx_buffer s') = length (rx_buffer s)
             /\ length (rx_buffer t') = length (rx_buffer t).
Proof.
  intros Fs Ft Hst Hsh H.
  pose proof (length_staged s Fs) as Ls.
  pose proof (length_staged t Ft) as Lt.
  assert (Hpos : rx_buffer_pos t = rx_buffer_pos s + length c)
    by (rewrite <- Lt, Hst, length_app; lia).
  assert (A : firstn (rx_buffer_pos s) (rx_buffer s)
              = firstn (rx_buffer_pos s) (rx_buffer t)).
  { replace (rx_buffer_pos s)
      with (Nat.min (rx_buffer_pos s) (rx_buffer_pos t)) at 2 by lia.
    rewrite <- firstn_firstn. fold (staged t). rewrite Hst.
    rewrite firstn_app, (@firstn_all2 _ _ (staged s)) by lia.
    replace (rx_buffer_pos s - length (staged s)) with 0 by lia.
    cbn [firstn]. now rewrite app_nil_r. }
  unfold loop_body in *. unfold HEADER_SIZE in *.
  destruct (rx_buffer_pos s <? 8) eqn:E8; [discriminate|].
  apply Nat.ltb_ge in E8.
  replace (rx_buffer_pos t <? 8) with false by (symmetry; apply Nat.ltb_ge; lia).
  rewrite <- (load_le_agree _ _ _ A 4 0) by lia.
  destruct (negb (load_le 4 0 (rx_buffer s) =? PACKET_SIGNATURE)%Z).
  - inversion H; subst; clear H. eexists. split; [reflexivity|].
    unfold staged, fits in *. cbn [rx_buffer rx_buffer_pos sh].
    rewrite !memmove_front, !length_memmove by lia.
    rewrite Hst, skipn_app.
    replace (1 - length (firstn (rx_buffer_pos s) (rx_buffer s)))
      with 0 by lia.
    repeat split; auto; lia.
  - rewrite <- (load_le_agree _ _ _ A 2 4) by lia.
    rewrite <- (load_le_agree _ _ _ A 2 6) by lia.
    set (n := Z.to_nat (load_le 2 6 (rx_buffer s))) in *.
    destruct (rx_buffer_pos s <? 8 + n) eqn:En; [discriminate|].
    apply Nat.ltb_ge in En.
    replace (rx_buffer_pos t <? 8 + n) with false
      by (symmetry; apply Nat.ltb_ge; lia).
    rewrite <- (dispatch_agree _ _ _ A) by (unfold HEADER_SIZE; lia).
    rewrite <- (slice_agree _ _ _ A n 8) by lia.
    rewrite Hsh.
    destruct (dispatch (load_le 2 4 (rx_buffer s)) n (rx_buffer s) (sh s))
      as [evs d].
    inversion H; subst; clear H. eexists. split; [reflexivity|].
    unfold staged, fits in *. cbn [rx_buffer rx_buffer_pos sh].
    rewrite !memmove_front, !length_memmove by lia.
    rewrite Hst, skipn_app.
    replace (8 + n - length (firstn (rx_buffer_pos s) (rx_buffer s)))
      with 0 by lia.
    repeat split; auto; lia.
Qed.

(** The loop body and [scan] agree. *)
Lemma loop_body_scan s :
  fits s ->
  match loop_body s with
  | None => scan (staged s) (sh s) = None
  | Some (e, s') =>
      scan (staged s) (sh s) = Some (e, staged s', sh s')
      /\ fits s' /\ rx_buffer_pos s' < rx_buffer_pos s
      /\ length (rx_buffer s') = length (rx_buffer s)
  end.
Proof.
  intros Fs. destruct (loop_body s) as [[e s']|] eqn:E.
  - destruct (loop_body_mono s (tight (staged s) (sh s)) [] e s')
      as (t' & Ht & St & Sh & F1 & _ & Hlt & Hlen & _);
      auto using fits_tight.
    { now rewrite staged_tight, app_nil_r. }
    unfold scan. rewrite Ht, St, Sh, app_nil_r. auto.
  - unfold scan.
    destruct (loop_body (tight (staged s) (sh s))) as [[e t']|] eqn:E';
      [|reflexivity].
    destruct (loop_body_mono (tight (staged s) (sh s)) s [] e t')
      as (s' & Hs & _); auto using fits_tight.
    { now rewrite staged_tight, app_nil_r. }
    congruence.
Qed.

(** [scan], spelled out on the staged bytes. *)
Lemma scan_eq l d :
  scan l d =
  if length l <? HEADER_SIZE then None
  else if negb (load_le 4 0 l =? PACKET_SIGNATURE)%Z
       then Some ([Printk BadSignature], skipn 1 l, d)
       else
         let t := load_le 2 4 l in
         let n := Z.to_nat (load_le 2 6 l) in
         if length l <? HEADER_SIZE + n then None
         else
           let (evs, d') := dispatch t n l d in
           Some (Handed t (firstn n (skipn HEADER_SIZE l)) :: evs,
                 skipn (HEADER_SIZE + n) l, d').
Proof.
  unfold scan, loop_body, tight. cbn [rx_buffer rx_buffer_pos sh].
  destruct (length l <? HEADER_SIZE) eqn:E8; [reflexivity|].
  apply Nat.ltb_ge in E8. unfold HEADER_SIZE in *.
  destruct (negb (load_le 4 0 l =? PACKET_SIGNATURE)%Z).
  - unfold staged. cbn [rx_buffer rx_buffer_pos sh].
    now rewrite memmove_front, firstn_all by lia.
  - cbv zeta.
    destruct (length l <? 8 + Z.to_nat (load_le 2 6 l)) eqn:En; [reflexivity|].
    apply Nat.ltb_ge in En.
    destruct (dispatch (load_le 2 4 l) (Z.to_nat (load_le 2 6 l)) l d)
      as [evs d'].
    unfold staged. cbn [rx_buffer rx_buffer_pos sh].
    now rewrite memmove_front, firstn_all by lia.
Qed.

Lemma scan_short l d : length l < HEADER_SIZE -> scan l d = None.
Proof.
  intros H. rewrite scan_eq. apply Nat.ltb_lt in H. now rewrite H.
Qed.

Lemma scan_app l d c e l' d' :
  scan l d = Some (e, l', d') -> scan (l ++ c) d = Some (e, l' ++ c, d').
Proof.
  unfold scan. intros H.
  destruct (loop_body (tight l d)) as [[e0 s']|] eqn:E; [|discriminate].
  inversion H; subst; clear H.
  destruct (loop_body_mono (tight l d) (tight (l ++ c) d) c e s')
    as (t' & Ht & St & Sh & _); auto using fits_tight.
  { now rewrite !staged_tight. }
  now rewrite Ht, St, Sh.
Qed.

Lemma scan_shorter l d e l' d' :
  scan l d = Some (e, l', d') -> length l' < length l.
Proof.
  intros H. pose proof (loop_body_scan (tight l d) (fits_tight l d)) as B.
  unfold scan in H.
  destruct (loop_body (tight l d)) as [[e0 s']|]; [|discriminate].
  inversion H; subst; clear H. destruct B as (_ & F & Hlt & _).
  rewrite (length_staged _ F). exact Hlt.
Qed.

Lemma loop_body_stuck s :
  fits s -> scan (staged s) (sh s) = None -> loop_body s = None.
Proof.
  intros Fs H. pose proof (loop_body_scan s Fs) as B.
  destruct (loop_body s) as [[e s']|]; [|reflexivity].
  destruct B as (B & _). congruence.
Qed.

Lemma deframe_loop_stuck s fuel :
  loop_body s = None -> deframe_loop fuel s = ([], s).
Proof. intros H. destruct fuel; cbn [deframe_loop]; now rewrite ?H. Qed.

(** ** Draining *)

Lemma drain_app l d e r d' :
  drain l d e r d' ->
  forall c e' r' d'', drain (r ++ c) d' e' r' d'' ->
  drain (l ++ c) d (e ++ e') r' d''.
Proof.
  induction 1 as [l d Hs | l d e l1 d1 es l2 d2 Hs _ IH]; intros c e' r' d'' Hc.
  - exact Hc.
  - rewrite <- app_assoc. eapply drain_step.
    + apply scan_app, Hs.
    + apply IH, Hc.
Qed.

Lemma drain_det l d e r d' :
  drain l d e r d' ->
  forall e0 r0 d0, drain l d e0 r0 d0 -> e = e0 /\ r = r0 /\ d' = d0.
Proof.
  induction 1 as [l d Hs | l d e l1 d1 es l2 d2 Hs _ IH];
    intros e0 r0 d0 H0; inversion H0; subst; try congruence; auto.
  match goal with
  | Hs' : scan l d = Some _ |- _ => rewrite Hs in Hs'; inversion Hs'; subst
  end.
  match goal with
  | Hd : drain _ _ _ r0 d0 |- _ => destruct (IH _ _ _ Hd) as (-> & -> & ->)
  end.
  auto.
Qed.

Lemma drain_stuck l d e r d' : drain l d e r d' -> scan r d' = None.
Proof. induction 1; auto. Qed.

(** With fuel for every staged byte the loop runs to its end. *)
Lemma deframe_loop_drain fuel : forall s,
  fits s -> rx_buffer_pos s <= fuel ->
  drain (staged s) (sh s) (fst (deframe_loop fuel s))
        (staged (snd (deframe_loop fuel s))) (sh (snd (deframe_loop fuel s)))
  /\ fits (snd (deframe_loop fuel s))
  /\ length (rx_buffer (snd (deframe_loop fuel s))) = length (rx_buffer s)
  /\ rx_buffer_pos (snd (deframe_loop fuel s)) <= rx_buffer_pos s.
Proof.
  induction fuel as [|fuel IH]; intros s Fs Hf;
    pose proof (loop_body_scan s Fs) as B; cbn [deframe_loop].
  - assert (E : loop_body s = None).
    { unfold loop_body, HEADER_SIZE.
      replace (rx_buffer_pos s) with 0 by lia. reflexivity. }
    rewrite E in B. cbn. auto using drain_stop.
  - destruct (loop_body s) as [[e1 s1]|].
    + destruct B as (Hs & F1 & Hlt & Hlen).
      destruct (IH s1 F1 ltac:(lia)) as (D & F2 & L2 & P2).
      destruct (deframe_loop fuel s1) as [e2 s2]. cbn [fst snd] in *.
      repeat split; try lia; auto. eapply drain_step; eauto.
    + cbn. auto using drain_stop.
Qed.

(** X20. The loop always ends: from any state whose fill level lies
    inside the array, [rx_buffer_pos] iterations are enough for the loop
    to be left by its own condition or [break], whatever is staged. *)
Lemma deframe_loop_done fuel s :
  fits s -> rx_buffer_pos s <= fuel ->
  loop_body (snd (deframe_loop fuel s)) = None.
Proof.
  intros Fs Hf.
  destruct (deframe_loop_drain fuel s Fs Hf) as (D & F & _).
  apply drain_stuck in D.
  pose proof (loop_body_scan _ F) as B.
  destruct (loop_body (snd (deframe_loop fuel s))) as [[e s']|]; [|reflexivity].
  destruct B as (B & _). congruence.
Qed.

(** More fuel than staged bytes changes nothing. *)
Lemma deframe_loop_fuel f1 : forall f2 s,
  fits s -> rx_buffer_pos s <= f1 -> rx_buffer_pos s <= f2 ->
  deframe_loop f1 s = deframe_loop f2 s.
Proof.
  induction f1 as [|f1 IH]; intros f2 s Fs H1 H2;
    pose proof (loop_body_scan s Fs) as B.
  - destruct f2; cbn [deframe_loop]; [reflexivity|].
    unfold loop_body, HEADER_SIZE.
    now replace (rx_buffer_pos s) with 0 by lia.
  - destruct f2 as [|f2]; cbn [deframe_loop].
    + unfold loop_body, HEADER_SIZE.
      now replace (rx_buffer_pos s) with 0 by lia.
    + destruct (loop_body s) as [[e1 s1]|]; [|reflexivity].
      destruct B as (_ & F1 & Hlt & _).
      now rewrite (IH f2 s1) by (auto; lia).
Qed.

(** One accepted call of the callback, seen on the staged bytes. *)
Lemma uart_receive_buf_drain data s :
  stage_ok s -> data <> [] ->
  rx_buffer_pos s + length data <= RX_BUFFER_SIZE ->
  let o := uart_receive_buf data s in
  drain (staged s ++ data) (sh s) (trace o) (staged (after o)) (sh (after o))
  /\ stage_ok (after o) /\ ret o = Z.of_nat (length data).
Proof.
  intros [Hlen Hpos] Hne Hroom. unfold uart_receive_buf.
  destruct data as [|b data]; [congruence|]. cbn [length Nat.eqb] in *.
  replace (RX_BUFFER_SIZE <? rx_buffer_pos s + S (length data)) with false
    by (symmetry; apply Nat.ltb_ge; lia).
  set (s0 := mkState (memcpy (rx_buffer s) (rx_buffer_pos s) (b :: data))
                     (rx_buffer_pos s + S (length data)) (sh s)).
  assert (F0 : fits s0)
    by (unfold fits, s0; cbn; rewrite length_memcpy; lia).
  assert (S0 : staged s0 = staged s ++ b :: data).
  { unfold staged, s0. cbn [rx_buffer rx_buffer_pos].
    apply (memcpy_staged (rx_buffer s) (rx_buffer_pos s) (b :: data)).
    cbn [length]. lia. }
  destruct (deframe_loop_drain (rx_buffer_pos s + S (length data)) s0 F0)
    as (D & F & L & P); [unfold s0; cbn; lia|].
  destruct (deframe_loop (rx_buffer_pos s + S (length data)) s0) as [evs s'].
  cbn [fst snd ret trace after] in *. rewrite S0 in D.
  repeat split; auto.
  - rewrite L. unfold s0. cbn. now rewrite length_memcpy.
  - unfold s0 in P. cbn in P. lia.
Qed.

(** ** Frames on the wire *)

Lemma encode_cons f :
  encode f =
  x0d :: xf0 :: xad :: x0b
  :: byte.of_Z (f_type f) :: byte.of_Z (Z.shiftr (f_type f) 8)
  :: byte.of_Z (Z.of_nat (length (f_payload f)))
  :: byte.of_Z (Z.shiftr (Z.of_nat (length (f_payload f))) 8)
  :: f_payload f.
Proof. reflexivity. Qed.

Lemma length_encode f :
  length (encode f) = HEADER_SIZE + length (f_payload f).
Proof.
  unfold encode. rewrite !length_app, !length_le_split.
  unfold HEADER_SIZE. lia.
Qed.

Lemma load_signature f rest :
  load_le 4 0 (encode f ++ rest) = PACKET_SIGNATURE.
Proof. reflexivity. Qed.

Lemma load_type f rest :
  well_formed f -> load_le 2 4 (encode f ++ rest) = f_type f.
Proof.
  intros [Ht _]. rewrite encode_cons. unfold load_le.
  cbn [app skipn firstn].
  change (le_combine (le_split 2 (f_type f)) = f_type f).
  rewrite le_combine_split. apply Z.mod_small.
  change (Z.of_nat 2 * 8)%Z with 16%Z. lia.
Qed.

Lemma load_length f rest :
  well_formed f ->
  Z.to_nat (load_le 2 6 (encode f ++ rest)) = length (f_payload f).
Proof.
  intros [_ Hn]. rewrite encode_cons. unfold load_le.
  cbn [app skipn firstn].
  change (Z.to_nat (le_combine (le_split 2 (Z.of_nat (length (f_payload f)))))
          = length (f_payload f)).
  rewrite le_combine_split, Z.mod_small.
  - apply Nat2Z.id.
  - change (Z.of_nat 2 * 8)%Z with 16%Z. lia.
Qed.

Lemma scan_frame f rest d :
  well_formed f ->
  scan (encode f ++ rest) d =
  Some (Handed (f_type f) (f_payload f) :: fst (deliver f d), rest,
        snd (deliver f d)).
Proof.
  intros W. rewrite scan_eq.
  pose proof (length_encode f) as L.
  rewrite load_signature, load_type, load_length by assumption.
  rewrite length_app, L.
  replace (HEADER_SIZE + length (f_payload f) + length rest <? HEADER_SIZE)
    with false by (symmetry; apply Nat.ltb_ge; lia).
  rewrite Z.eqb_refl. cbn [negb]. cbv zeta.
  replace (HEADER_SIZE + length (f_payload f) + length rest
           <? HEADER_SIZE + length (f_payload f))
    with false by (symmetry; apply Nat.ltb_ge; lia).
  rewrite (dispatch_agree (encode f ++ rest) (encode f)
             (HEADER_SIZE + length (f_payload f))).
  - fold (deliver f d). destruct (deliver f d) as [evs d']. cbn [fst snd].
    assert (R : skipn (HEADER_SIZE + length (f_payload f)) (encode f ++ rest)
                = rest).
    { rewrite <- L, skipn_app, skipn_all, Nat.sub_diag. reflexivity. }
    assert (P : firstn (length (f_payload f))
                  (skipn HEADER_SIZE (encode f ++ rest)) = f_payload f).
    { rewrite encode_cons. cbn [app skipn HEADER_SIZE].
      now rewrite firstn_app, firstn_all, Nat.sub_diag, firstn_0, app_nil_r. }
    now rewrite R, P.
  - rewrite <- L, firstn_app, firstn_all, Nat.sub_diag. cbn [firstn].
    now rewrite app_nil_r.
  - lia.
Qed.

(** A proper prefix of a frame is not consumed. *)
Lemma scan_truncated f k d :
  well_formed f -> k < length (encode f) ->
  scan (firstn k (encode f)) d = None.
Proof.
  intros W Hk. rewrite scan_eq.
  assert (L : length (firstn k (encode f)) = k)
    by (rewrite length_firstn; lia).
  rewrite L.
  destruct (k <? HEADER_SIZE) eqn:E8; [reflexivity|].
  apply Nat.ltb_ge in E8. unfold HEADER_SIZE in E8.
  assert (A : firstn k (firstn k (encode f)) = firstn k (encode f))
    by (rewrite firstn_firstn; f_equal; lia).
  rewrite (load_le_agree _ _ k A 4 0), (load_le_agree _ _ k A 2 6) by lia.
  pose proof (load_signature f []) as S4.
  pose proof (load_length f [] W) as S2.
  rewrite app_nil_r in S4, S2. rewrite S4, S2, Z.eqb_refl.
  cbn [negb]. cbv zeta. rewrite length_encode in Hk.
  apply Nat.ltb_lt in Hk. now rewrite Hk.
Qed.

Lemma drain_frames fs : forall d,
  Forall well_formed fs ->
  drain (concat (map encode fs)) d
        (fst (deliver_all fs d)) [] (snd (deliver_all fs d)).
Proof.
  induction fs as [|f fs IH]; intros d W; cbn [map concat deliver_all].
  - apply drain_stop, scan_short. cbn. unfold HEADER_SIZE. lia.
  - inversion W as [|? ? Wf Wfs]; subst.
    pose proof (scan_frame f (concat (map encode fs)) d Wf) as Hs.
    destruct (deliver f d) as [e1 d1]. cbn [fst snd] in Hs.
    specialize (IH d1 Wfs).
    destruct (deliver_all fs d1) as [e2 d2]. cbn [fst snd] in *.
    eapply drain_step; eauto.
Qed.

(** ** Frames handed over along a trace *)

Lemma handed_app e1 e2 : handed (e1 ++ e2) = handed e1 ++ handed e2.
Proof.
  induction e1 as [|[m|t p|] e1 IH]; cbn [app handed]; auto.
  now rewrite IH.
Qed.

Lemma handed_enqueue_byte b d : handed (fst (enqueue_byte b d)) = [].
Proof. unfold enqueue_byte. now destruct (_ =? _). Qed.

Lemma handed_enqueue_loop rx n : forall i d,
  handed (fst (enqueue_loop rx i n d)) = [].
Proof.
  induction n as [|n IH]; intros i d; cbn [enqueue_loop]; [reflexivity|].
  pose proof (handed_enqueue_byte (nth i rx x00) d) as H1.
  destruct (enqueue_byte (nth i rx x00) d) as [e1 d1].
  specialize (IH (S i) d1).
  destruct (enqueue_loop rx (S i) n d1) as [e2 d2]. cbn [fst] in *.
  now rewrite handed_app, H1, IH.
Qed.

Lemma handed_dispatch t n rx d : handed (fst (dispatch t n rx d)) = [].
Proof.
  unfold dispatch. destruct (t =? 4)%Z.
  - now destruct (2 <=? n).
  - pose proof (handed_enqueue_loop rx (HEADER_SIZE + n) 0 d) as H.
    destruct (enqueue_loop rx 0 (HEADER_SIZE + n) d) as [evs d'].
    cbn [fst handed] in *. now rewrite handed_app, H.
Qed.

Lemma handed_deliver_all fs : forall d,
  handed (fst (deliver_all fs d))
  = map (fun f => (f_type f, f_payload f)) fs.
Proof.
  induction fs as [|f fs IH]; intros d; cbn [deliver_all map]; [reflexivity|].
  pose proof (handed_dispatch (f_type f) (length (f_payload f)) (encode f) d)
    as H1.
  fold (deliver f d) in H1. destruct (deliver f d) as [e1 d1].
  specialize (IH d1). destruct (deliver_all fs d1) as [e2 d2].
  cbn [fst app handed] in *. now rewrite handed_app, H1, IH.
Qed.

Lemma handed_repeat_bad n : handed (repeat (Printk BadSignature) n) = [].
Proof. induction n; cbn; auto. Qed.

(** ** Runs of the callback *)

(** A run without overflow is the drain of everything fed so far. *)
Lemma feed_all_drain chunks : forall s,
  stage_ok s -> scan (staged s) (sh s) = None ->
  no_overflow chunks s = true ->
  exists evs,
    drain (staged s ++ concat chunks) (sh s) evs
          (staged (snd (feed_all chunks s))) (sh (snd (feed_all chunks s)))
    /\ handed (fst (feed_all chunks s)) = handed evs
    /\ stage_ok (snd (feed_all chunks s)).
Proof.
  induction chunks as [|c cs IH]; intros s Hok Hstuck Hno.
  - exists []. cbn [concat feed_all fst snd]. rewrite app_nil_r.
    auto using drain_stop.
  - cbn [no_overflow] in Hno. apply andb_prop in Hno as [Hroom Hno].
    apply Nat.leb_le in Hroom. cbn [concat feed_all].
    destruct c as [|b c].
    + change (uart_receive_buf [] s) with (mkOutcome 0 [Printk InvalidParams] s)
        in *.
      cbn [after trace] in *.
      destruct (IH s Hok Hstuck Hno) as (evs & D & Hh & Hok').
      destruct (feed_all cs s) as [e2 s2]. cbn [fst snd app handed] in *.
      exists evs. auto.
    + destruct (uart_receive_buf_drain (b :: c) s Hok ltac:(discriminate) Hroom)
        as (D1 & Hok1 & _).
      set (o := uart_receive_buf (b :: c) s) in *.
      destruct (IH (after o) Hok1 (drain_stuck _ _ _ _ _ D1) Hno)
        as (evs & D & Hh & Hok').
      destruct (feed_all cs (after o)) as [e2 s2]. cbn [fst snd] in *.
      exists (trace o ++ evs). rewrite app_assoc, !handed_app, Hh.
      eauto using drain_app.
Qed.

Lemma concat_bytewise l : concat (bytewise l) = l.
Proof.
  unfold bytewise. induction l as [|b l IH]; cbn [map concat app]; congruence.
Qed.

Lemma skipn_cons_nth (l : list byte) : forall k,
  k < length l -> skipn k l = nth k l x00 :: skipn (S k) l.
Proof.
  induction l as [|a l IH]; intros k H; cbn [length] in H; [lia|].
  destruct k as [|k]; [reflexivity|].
  cbn [nth]. rewrite !skipn_cons. apply IH. lia.
Qed.

Lemma firstn_snoc_nth (l : list byte) : forall k,
  k < length l -> firstn (S k) l = firstn k l ++ [nth k l x00].
Proof.
  induction l as [|a l IH]; intros k H; cbn [length] in H; [lia|].
  destruct k as [|k]; [reflexivity|].
  cbn [nth]. rewrite !firstn_cons. cbn [app]. f_equal. apply IH. lia.
Qed.

(** The next byte of a frame either extends the staged prefix or
    completes the frame and empties the staging array. *)
Lemma feed_next_byte f k s :
  stage_ok s -> well_formed f ->
  length (encode f) <= RX_BUFFER_SIZE ->
  k < length (encode f) ->
  staged s = firstn k (encode f) ->
  let s1 := after (uart_receive_buf [nth k (encode f) x00] s) in
  rx_buffer_pos s + 1 <= RX_BUFFER_SIZE
  /\ stage_ok s1
  /\ (S k < length (encode f) -> staged s1 = firstn (S k) (encode f))
  /\ (S k = length (encode f) -> rx_buffer_pos s1 = 0).
Proof.
  intros Hok W Hfit Hk Hst.
  assert (Hpos : rx_buffer_pos s = k).
  { rewrite <- (length_staged s (stage_ok_fits s Hok)), Hst, length_firstn.
    lia. }
  assert (Hroom : rx_buffer_pos s + length [nth k (encode f) x00]
                  <= RX_BUFFER_SIZE) by (cbn [length]; lia).
  destruct (uart_receive_buf_drain [nth k (encode f) x00] s Hok
              ltac:(discriminate) Hroom) as (D & Hok1 & _).
  rewrite Hst, <- firstn_snoc_nth in D by assumption.
  cbv zeta. split; [cbn [length] in Hroom; exact Hroom|].
  split; [exact Hok1|]. split; intros Hnext.
  - pose proof (drain_stop _ (sh s) (scan_truncated f (S k) (sh s) W Hnext))
      as D'.
    now destruct (drain_det _ _ _ _ _ D _ _ _ D') as (_ & -> & _).
  - rewrite Hnext, firstn_all in D.
    pose proof (drain_frames [f] (sh s) (Forall_cons _ W (Forall_nil _))) as D'.
    cbn [map concat] in D'. rewrite app_nil_r in D'.
    destruct (drain_det _ _ _ _ _ D _ _ _ D') as (_ & E & _).
    rewrite <- (length_staged _ (stage_ok_fits _ Hok1)), E. reflexivity.
Qed.

Lemma bytewise_frame_no_overflow f rest :
  well_formed f -> length (encode f) <= RX_BUFFER_SIZE ->
  (forall s, stage_ok s -> rx_buffer_pos s = 0 ->
             no_overflow (bytewise rest) s = true) ->
  forall j k s,
    stage_ok s -> staged s = firstn k (encode f) ->
    k + S j = length (encode f) ->
    no_overflow (bytewise (skipn k (encode f) ++ rest)) s = true.
Proof.
  intros W Hfit Hrest.
  induction j as [|j IH]; intros k s Hok Hst Hk;
    destruct (feed_next_byte f k s Hok W Hfit ltac:(lia) Hst)
      as (Hroom & Hok1 & Hmore & Hdone);
    rewrite skipn_cons_nth by lia; cbn [app bytewise map no_overflow];
    apply andb_true_intro; (split; [apply Nat.leb_le; exact Hroom|]).
  - rewrite skipn_all2 by lia. cbn [app]. apply Hrest; auto. apply Hdone. lia.
  - apply IH; auto; try lia. apply Hmore. lia.
Qed.

(** X21. Well-formed frames that fit the staging array can always be fed
    one byte per call from an empty staging array: no call of such a run
    hits the overflow guard. *)
Lemma bytewise_no_overflow frames :
  Forall well_formed frames ->
  Forall (fun f => length (encode f) <= RX_BUFFER_SIZE) frames ->
  forall s, stage_ok s -> rx_buffer_pos s = 0 ->
  no_overflow (bytewise (concat (map encode frames))) s = true.
Proof.
  induction frames as [|f frames IH]; intros W Hfit s Hok Hpos;
    cbn [map concat]; [reflexivity|].
  inversion W as [|? ? Wf Wfs]; inversion Hfit as [|? ? Ff Ffs]; subst.
  pose proof (length_encode f) as L. unfold HEADER_SIZE in L.
  apply (bytewise_frame_no_overflow f _ Wf Ff (IH Wfs Ffs)
           (length (f_payload f) + 7) 0 s Hok).
  - now rewrite (staged_empty s Hpos).
  - lia.
Qed.

(** ** Framing correctness *)

(** C1. Whatever the chunking of a stream of well-formed frames, as long
    as no call overflows the staging array, the type switch is handed
    exactly the frames of the stream, in order and with their payloads
    byte for byte; the staging array ends empty and the shared state is
    the one obtained by delivering the frames one after the other. *)
Theorem framing_correct (s : state) (frames : list frame)
        (chunks : list (list byte)) :
  stage_ok s -> rx_buffer_pos s = 0 ->
  Forall well_formed frames ->
  concat chunks = concat (map encode frames) ->
  no_overflow chunks s = true ->
  handed (fst (feed_all chunks s))
  = map (fun f => (f_type f, f_payload f)) frames
  /\ length (handed (fst (feed_all chunks s))) = length frames
  /\ rx_buffer_pos (snd (feed_all chunks s)) = 0
  /\ sh (snd (feed_all chunks s)) = snd (deliver_all frames (sh s)).
Proof.
  intros Hok Hpos W Hcat Hno.
  pose proof (staged_empty s Hpos) as E.
  destruct (feed_all_drain chunks s Hok) as (evs & D & Hh & Hok'); auto.
  { rewrite E. apply scan_short. cbn. unfold HEADER_SIZE. lia. }
  rewrite E, Hcat in D. cbn [app] in D.
  destruct (drain_det _ _ _ _ _ D _ _ _ (drain_frames frames (sh s) W))
    as (-> & Hst & Hsh).
  rewrite Hh, handed_deliver_all, length_map.
  repeat split; auto.
  rewrite <- (length_staged _ (stage_ok_fits _ Hok')), Hst. reflexivity.
Qed.

Lemma framing_correct_witness :
  handed (fst (feed_all
                 (bytewise (encode sample_frame ++ encode state_update_12))
                 init_state))
  = [(7%Z, [x61; x62; x63]); (4%Z, [x01; x02])].
Proof.
  refine (proj1 (framing_correct init_state [sample_frame; state_update_12]
                   (bytewise (encode sample_frame ++ encode state_update_12))
                   stage_ok_init eq_refl _ _ _)).
  - repeat constructor; cbn; lia.
  - rewrite concat_bytewise. cbn [map concat]. now rewrite app_nil_r.
  - vm_compute. reflexivity.
Defined.

(** ** Resynchronisation *)

Lemma garbage_at g i :
  garbage g = true -> i + 4 <= length g -> load_le 4 i g <> PACKET_SIGNATURE.
Proof.
  unfold garbage. rewrite forallb_forall. intros H Hi E.
  specialize (H i). rewrite in_seq in H.
  rewrite E, Z.eqb_refl in H. cbn in H.
  assert (false = true) by (apply H; lia). discriminate.
Qed.

Lemma garbage_tl b g : garbage (b :: g) = true -> garbage g = true.
Proof.
  intros H. unfold garbage. rewrite forallb_forall. intros i Hi.
  rewrite in_seq in Hi. apply negb_true_iff, Z.eqb_neq.
  change (load_le 4 i g) with (load_le 4 (S i) (b :: g)).
  apply garbage_at; [assumption | cbn [length]; lia].
Qed.

(** The signature does not overlap itself: a window that starts in the
    garbage and ends inside the next frame's signature never matches. *)
Lemma straddle g rest :
  0 < length g < 4 ->
  load_le 4 0 (g ++ x0d :: xf0 :: xad :: x0b :: rest) <> PACKET_SIGNATURE.
Proof.
  intros Hg E. unfold load_le in E.
  change PACKET_SIGNATURE with (le_combine [x0d; xf0; xad; x0b]) in E.
  destruct g as [|a [|b [|c [|? ?]]]]; cbn [length] in Hg; try lia;
    cbn [app skipn firstn] in E;
    apply le_combine_inj in E; try reflexivity; congruence.
Qed.

Lemma scan_garbage b g f d :
  garbage (b :: g) = true ->
  scan ((b :: g) ++ encode f) d
  = Some ([Printk BadSignature], g ++ encode f, d).
Proof.
  intros G. rewrite scan_eq.
  replace (length ((b :: g) ++ encode f) <? HEADER_SIZE) with false.
  2:{ symmetry. apply Nat.ltb_ge.
      rewrite length_app, length_encode. lia. }
  assert (N : load_le 4 0 ((b :: g) ++ encode f) <> PACKET_SIGNATURE).
  { destruct (Nat.lt_ge_cases (length (b :: g)) 4) as [Hlt | Hge].
    - rewrite encode_cons. apply straddle. cbn [length] in *. lia.
    - rewrite (load_le_agree _ (b :: g) (length (b :: g))); try lia.
      + apply garbage_at; [assumption | lia].
      + now rewrite firstn_app, Nat.sub_diag, firstn_0, app_nil_r. }
  apply Z.eqb_neq in N. rewrite N. reflexivity.
Qed.

Lemma drain_garbage f d : forall g,
  garbage g = true -> well_formed f ->
  drain (g ++ encode f) d
        (repeat (Printk BadSignature) (length g)
         ++ Handed (f_type f) (f_payload f) :: fst (deliver f d))
        [] (snd (deliver f d)).
Proof.
  induction g as [|b g IH]; intros G W.
  - pose proof (drain_frames [f] d (Forall_cons _ W (Forall_nil _))) as D.
    cbn [map concat deliver_all] in D. rewrite app_nil_r in D.
    destruct (deliver f d) as [e1 d1]. cbn [fst snd app] in *.
    now rewrite app_nil_r in D.
  - cbn [length repeat].
    change (Printk BadSignature :: repeat (Printk BadSignature) (length g))
      with ([Printk BadSignature] ++ repeat (Printk BadSignature) (length g)).
    rewrite <- app_assoc.
    eapply drain_step; [apply scan_garbage, G|].
    apply IH; eauto using garbage_tl.
Qed.

(** C2, as stated, fails: seven garbage bytes stay staged (fewer than a
    header, so none is discarded); a frame of 2042 bytes that follows in
    one call would bring the fill level to 2049, the overflow guard
    resets the staging array and nothing is handed over. *)
Lemma resync_unconditional_fails : ~ resync_unconditional.
Proof.
  intros H.
  destruct (H (repeat xff 7) (mkFrame 7 (repeat x00 2034))
              [repeat xff 7; encode (mkFrame 7 (repeat x00 2034))])
    as [Hh _].
  - reflexivity.
  - split; cbn [f_type f_payload]; [lia | rewrite repeat_length; lia].
  - cbn [concat]. now rewrite app_nil_r.
  - vm_compute in Hh. discriminate.
Qed.

(** C2 (amended). With at least a header staged and a wrong signature in
    front, one iteration discards exactly the first staged byte, touches
    nothing else and the loop goes on from there.  Consequently, garbage
    without a signature followed by one well-formed frame, fed from an
    empty staging array in any chunking that never overflows it, hands
    over exactly that frame and leaves the staging array empty. *)
Theorem resync_correct :
  (forall s, fits s -> HEADER_SIZE <= rx_buffer_pos s ->
     load_le 4 0 (rx_buffer s) <> PACKET_SIGNATURE ->
     exists s',
       loop_body s = Some ([Printk BadSignature], s')
       /\ rx_buffer_pos s' = rx_buffer_pos s - 1
       /\ staged s' = skipn 1 (staged s)
       /\ sh s' = sh s
       /\ forall fuel,
           deframe_loop (S fuel) s
           = (Printk BadSignature :: fst (deframe_loop fuel s'),
              snd (deframe_loop fuel s')))
  /\ (forall s g f chunks,
        stage_ok s -> rx_buffer_pos s = 0 ->
        garbage g = true -> well_formed f ->
        concat chunks = g ++ encode f ->
        no_overflow chunks s = true ->
        handed (fst (feed_all chunks s)) = [(f_type f, f_payload f)]
        /\ rx_buffer_pos (snd (feed_all chunks s)) = 0
        /\ sh (snd (feed_all chunks s)) = snd (deliver f (sh s))).
Proof.
  split.
  - intros s Fs H8 Hsig.
    assert (E : loop_body s
                = Some ([Printk BadSignature],
                        mkState (memmove (rx_buffer s) 0 1 (rx_buffer_pos s - 1))
                                (rx_buffer_pos s - 1) (sh s))).
    { unfold loop_body. apply Nat.ltb_ge in H8. rewrite H8.
      apply Z.eqb_neq in Hsig. now rewrite Hsig. }
    eexists. split; [exact E|]. cbn [rx_buffer_pos sh].
    repeat split.
    + unfold staged. cbn [rx_buffer rx_buffer_pos].
      unfold fits, HEADER_SIZE in *. apply memmove_front; lia.
    + intros fuel. cbn [deframe_loop]. rewrite E.
      now destruct (deframe_loop fuel _).
  - intros s g f chunks Hok Hpos G W Hcat Hno.
    pose proof (staged_empty s Hpos) as E.
    destruct (feed_all_drain chunks s Hok) as (evs & D & Hh & Hok'); auto.
    { rewrite E. apply scan_short. cbn. unfold HEADER_SIZE. lia. }
    rewrite E, Hcat in D. cbn [app] in D.
    destruct (drain_det _ _ _ _ _ D _ _ _ (drain_garbage f (sh s) g G W))
      as (-> & Hst & Hsh).
    rewrite Hh, handed_app, handed_repeat_bad. cbn [app handed].
    unfold deliver at 1. rewrite handed_dispatch.
    repeat split; auto.
    rewrite <- (length_staged _ (stage_ok_fits _ Hok')), Hst. reflexivity.
Qed.

Lemma resync_correct_witness :
  (exists s',
      loop_body (mkState (noise ++ repeat x00 2039) 9 init_shared)
      = Some ([Printk BadSignature], s')
      /\ rx_buffer_pos s' = 8)
  /\ handed (fst (feed_all [firstn 5 noise;
                            skipn 5 noise ++ encode sample_frame] init_state))
     = [(7%Z, [x61; x62; x63])].
Proof.
  destruct resync_correct as [A B]. split.
  - destruct (A (mkState (noise ++ repeat x00 2039) 9 init_shared))
      as (s' & E & P & _).
    + unfold fits. cbn. lia.
    + cbn. unfold HEADER_SIZE. lia.
    + vm_compute. discriminate.
    + exists s'. split; [exact E | exact P].
  - refine (proj1 (B init_state noise sample_frame _ stage_ok_init eq_refl
                     _ _ _ _)).
    + vm_compute. reflexivity.
    + split; cbn; lia.
    + reflexivity.
    + vm_compute. reflexivity.
Defined.

(** ** Partial frames *)

(** C3. With a valid signature in front and fewer staged bytes than the
    header announces, the loop is left at once: no event, no change of
    state.  When the staged bytes are a proper prefix of a well-formed
    frame the same holds, and once the remaining bytes have arrived, in
    any chunking that does not overflow the staging array, exactly that
    frame has been handed over, once, with its payload intact. *)
Theorem partial_frame_stable :
  (forall s fuel,
      HEADER_SIZE <= rx_buffer_pos s ->
      load_le 4 0 (rx_buffer s) = PACKET_SIGNATURE ->
      rx_buffer_pos s < HEADER_SIZE + Z.to_nat (load_le 2 6 (rx_buffer s)) ->
      loop_body s = None /\ deframe_loop fuel s = ([], s))
  /\ (forall s f k chunks,
        stage_ok s -> well_formed f ->
        k < length (encode f) ->
        staged s = firstn k (encode f) ->
        concat chunks = skipn k (encode f) ->
        no_overflow chunks s = true ->
        (forall fuel, deframe_loop fuel s = ([], s))
        /\ handed (fst (feed_all chunks s)) = [(f_type f, f_payload f)]
        /\ rx_buffer_pos (snd (feed_all chunks s)) = 0
        /\ sh (snd (feed_all chunks s)) = snd (deliver f (sh s))).
Proof.
  split.
  - intros s fuel H8 Hsig Hshort.
    assert (E : loop_body s = None).
    { unfold loop_body. apply Nat.ltb_ge in H8. rewrite H8, Hsig, Z.eqb_refl.
      cbn [negb]. cbv zeta. apply Nat.ltb_lt in Hshort. now rewrite Hshort. }
    split; [exact E | now apply deframe_loop_stuck].
  - intros s f k chunks Hok W Hk Hst Hcat Hno.
    assert (Hstuck : scan (staged s) (sh s) = None)
      by (rewrite Hst; now apply scan_truncated).
    split.
    { intros fuel. apply deframe_loop_stuck, loop_body_stuck;
        auto using stage_ok_fits. }
    destruct (feed_all_drain chunks s Hok Hstuck Hno) as (evs & D & Hh & Hok').
    rewrite Hst, Hcat, firstn_skipn in D.
    pose proof (drain_frames [f] (sh s) (Forall_cons _ W (Forall_nil _))) as D'.
    cbn [map concat deliver_all] in D'. rewrite app_nil_r in D'.
    destruct (drain_det _ _ _ _ _ D _ _ _ D') as (-> & Hs' & Hsh).
    rewrite Hh, Hsh.
    pose proof (handed_dispatch (f_type f) (length (f_payload f)) (encode f)
                  (sh s)) as Hd.
    fold (deliver f (sh s)) in Hd.
    destruct (deliver f (sh s)) as [e1 d1].
    cbn [fst snd app handed] in *. rewrite app_nil_r, Hd.
    repeat split.
    rewrite <- (length_staged _ (stage_ok_fits _ Hok')), Hs'. reflexivity.
Qed.

Lemma partial_frame_stable_witness :
  (loop_body half_fed = None /\ deframe_loop 9 half_fed = ([], half_fed))
  /\ handed (fst (feed_all (bytewise (skipn 9 (encode sample_frame))) half_fed))
     = [(7%Z, [x61; x62; x63])].
Proof.
  destruct partial_frame_stable as [A B]. split.
  - apply A.
    + vm_compute. lia.
    + vm_compute. reflexivity.
    + vm_compute. lia.
  - refine (proj1 (proj2 (B half_fed sample_frame 9 _ _ _ _ _ _ _))).
    + split; [vm_compute; reflexivity | vm_compute; lia].
    + split; cbn; lia.
    + vm_compute. lia.
    + vm_compute. reflexivity.
    + apply concat_bytewise.
    + vm_compute. reflexivity.
Defined.

(** ** Malformed state updates *)

(** C5. A complete frame of type 0x0004 whose announced payload is shorter
    than two bytes is handed to the type switch, which only logs an error:
    the shared state (ring, [root_state], [version]) is unchanged, the
    frame leaves the staging array, and the loop goes on with what
    follows. *)
Theorem short_state_update_discarded (s : state) :
  fits s ->
  HEADER_SIZE <= rx_buffer_pos s ->
  load_le 4 0 (rx_buffer s) = PACKET_SIGNATURE ->
  load_le 2 4 (rx_buffer s) = 4%Z ->
  Z.to_nat (load_le 2 6 (rx_buffer s)) < 2 ->
  HEADER_SIZE + Z.to_nat (load_le 2 6 (rx_buffer s)) <= rx_buffer_pos s ->
  let n := Z.to_nat (load_le 2 6 (rx_buffer s)) in
  let payload := firstn n (skipn HEADER_SIZE (rx_buffer s)) in
  exists s',
    loop_body s = Some ([Handed 4 payload; Printk PayloadTooSmall], s')
    /\ sh s' = sh s
    /\ root_state (sh s') = root_state (sh s)
    /\ version (sh s') = version (sh s)
    /\ staged s' = skipn (HEADER_SIZE + n) (staged s)
    /\ rx_buffer_pos s' = rx_buffer_pos s - (HEADER_SIZE + n)
    /\ forall fuel,
        deframe_loop (S fuel) s
        = (Handed 4 payload :: Printk PayloadTooSmall
             :: fst (deframe_loop fuel s'),
           snd (deframe_loop fuel s')).
Proof.
  intros Fs H8 Hsig Hty Hn Hfull n payload.
  assert (E : loop_body s
              = Some ([Handed 4 payload; Printk PayloadTooSmall],
                      mkState (memmove (rx_buffer s) 0 (HEADER_SIZE + n)
                                 (rx_buffer_pos s - (HEADER_SIZE + n)))
                              (rx_buffer_pos s - (HEADER_SIZE + n)) (sh s))).
  { unfold loop_body. apply Nat.ltb_ge in H8. rewrite H8, Hsig, Z.eqb_refl, Hty.
    cbn [negb]. cbv zeta. fold n.
    apply Nat.ltb_ge in Hfull. fold n in Hfull. rewrite Hfull.
    unfold dispatch. rewrite Z.eqb_refl.
    replace (2 <=? n) with false
      by (symmetry; apply Nat.leb_gt; exact Hn).
    reflexivity. }
  eexists. split; [exact E|]. cbn [rx_buffer_pos sh].
  repeat split.
  - unfold staged. cbn [rx_buffer rx_buffer_pos].
    unfold fits in *. fold n in Hfull. apply memmove_front; lia.
  - intros fuel. cbn [deframe_loop]. rewrite E.
    now destruct (deframe_loop fuel _).
Qed.

Lemma short_state_update_discarded_witness :
  exists s',
    loop_body (first_call (encode short_update ++ encode sample_frame))
    = Some ([Handed 4 [x09]; Printk PayloadTooSmall], s')
    /\ sh s' = init_shared
    /\ staged s' = encode sample_frame.
Proof.
  destruct (short_state_update_discarded
              (first_call (encode short_update ++ encode sample_frame)))
    as (s' & E & Hsh & _ & _ & Hst & _).
  - unfold fits. vm_compute. lia.
  - vm_compute. lia.
  - vm_compute. reflexivity.
  - vm_compute. reflexivity.
  - vm_compute. lia.
  - vm_compute. lia.
  - exists s'. split; [exact E|]. split; [exact Hsh|].
    rewrite Hst. vm_compute. reflexivity.
Defined.

(** ** Staging overflow *)

(** For a non-empty chunk the value returned is the byte count when the
    chunk is staged and 0 exactly when the overflow guard fires. *)
Lemma uart_receive_buf_ret data s :
  data <> [] ->
  ret (uart_receive_buf data s)
  = if RX_BUFFER_SIZE <? rx_buffer_pos s + length data
    then 0%Z else Z.of_nat (length data).
Proof.
  intros Hne. unfold uart_receive_buf.
  destruct data as [|b data]; [congruence|]. cbn [length Nat.eqb].
  destruct (RX_BUFFER_SIZE <? rx_buffer_pos s + S (length data));
    [reflexivity|].
  now destruct (deframe_loop _ _).
Qed.

(** C8. A call whose bytes do not fit behind the staged ones stages none
    of them: the fill level is reset to zero, the array and the shared
    state are not written, nothing is handed over, and the caller sees the
    error as a KERN_ERR message and a return value of 0 instead of the
    byte count. *)
Theorem rx_overflow_resets (data : list byte) (s : state) :
  stage_ok s ->
  RX_BUFFER_SIZE < rx_buffer_pos s + length data ->
  let o := uart_receive_buf data s in
  ret o = 0%Z
  /\ ret o <> Z.of_nat (length data)
  /\ trace o = [Printk RxOverflow]
  /\ level RxOverflow = KERN_ERR
  /\ handed (trace o) = []
  /\ rx_buffer_pos (after o) = 0
  /\ staged (after o) = []
  /\ rx_buffer (after o) = rx_buffer s
  /\ sh (after o) = sh s.
Proof.
  intros [_ Hpos] Hover. unfold uart_receive_buf.
  replace (length data =? 0) with false
    by (symmetry; apply Nat.eqb_neq; lia).
  apply Nat.ltb_lt in Hover. rewrite Hover. cbn.
  apply Nat.ltb_lt in Hover. repeat split; auto; lia.
Qed.

Lemma rx_overflow_resets_witness :
  let o := uart_receive_buf (repeat x55 2040) half_fed in
  ret o = 0%Z /\ trace o = [Printk RxOverflow] /\ rx_buffer_pos (after o) = 0.
Proof.
  destruct (rx_overflow_resets (repeat x55 2040) half_fed)
    as (R & _ & T & _ & _ & P & _).
  - split; [vm_compute; reflexivity | vm_compute; lia].
  - vm_compute. lia.
  - cbv zeta. auto.
Defined.

(** ** The state mirror *)

(** C9. A state update with at least two payload bytes overwrites
    [root_state] and [version] with payload bytes 0 and 1 and touches
    nothing else, so a second dispatch of the same frame changes nothing;
    after payload {0x01, 0x02} the attributes read "1" and "2". *)
Theorem state_update_idempotent (n : nat) (rx : list byte) (d : shared) :
  2 <= n ->
  let d1 := snd (dispatch 4 n rx d) in
  snd (dispatch 4 n rx d1) = d1
  /\ root_state d1 = nth HEADER_SIZE rx x00
  /\ version d1 = nth (HEADER_SIZE + 1) rx x00
  /\ uart_buffer d1 = uart_buffer d
  /\ buffer_head d1 = buffer_head d
  /\ buffer_tail d1 = buffer_tail d
  /\ (let d2 := snd (deliver state_update_12 d) in
      root_state d2 = x01 /\ version d2 = x02
      /\ root_state_show d2
         = String.String (Ascii.ascii_of_nat 49)
             (String.String (Ascii.ascii_of_nat 10) String.EmptyString)
      /\ version_show d2
         = String.String (Ascii.ascii_of_nat 50)
             (String.String (Ascii.ascii_of_nat 10) String.EmptyString)).
Proof.
  intros Hn. unfold dispatch. rewrite Z.eqb_refl.
  apply Nat.leb_le in Hn. rewrite Hn. cbn. repeat split.
Qed.

Lemma state_update_idempotent_witness :
  let d1 := sh (after (uart_receive_buf (encode state_update_12) init_state)) in
  snd (dispatch 4 2 (encode state_update_12) d1) = d1
  /\ root_state d1 = x01 /\ version d1 = x02.
Proof.
  pose proof (state_update_idempotent 2 (encode state_update_12) init_shared
                ltac:(lia)) as H.
  cbv zeta in H. destruct H as (H1 & H2 & H3 & _).
  change (sh (after (uart_receive_buf (encode state_update_12) init_state)))
    with (snd (dispatch 4 2 (encode state_update_12) init_shared)).
  cbv zeta. split; [exact H1|]. split; [rewrite H2 | rewrite H3]; reflexivity.
Defined.

(** ** The outbound ring *)

Lemma ring_ok_init : ring_ok init_shared.
Proof. unfold ring_ok. cbn. unfold BUF_SIZE. repeat split; lia. Qed.

Lemma length_ring_contents d : length (ring_contents d) = unread d.
Proof. unfold ring_contents. now rewrite length_map, length_seq. Qed.

Lemma nth_ring_contents d i :
  i < unread d ->
  nth i (ring_contents d) x00
  = nth ((buffer_tail d + i) mod BUF_SIZE) (uart_buffer d) x00.
Proof.
  intros H. unfold ring_contents.
  rewrite (nth_indep _ x00
             (nth ((buffer_tail d + 0) mod BUF_SIZE) (uart_buffer d) x00))
    by (now rewrite length_map, length_seq).
  rewrite (map_nth (fun k => nth ((buffer_tail d + k) mod BUF_SIZE)
                                 (uart_buffer d) x00)).
  now rewrite seq_nth.
Qed.

(** A list is the ring's contents when it has the right length and the
    right byte at every position. *)
Lemma ring_contents_ext d l :
  length l = unread d ->
  (forall i, i < unread d ->
     nth i l x00 = nth ((buffer_tail d + i) mod BUF_SIZE) (uart_buffer d) x00) ->
  ring_contents d = l.
Proof.
  intros HL Hn. apply (nth_ext _ _ x00 x00).
  - now rewrite length_ring_contents.
  - intros i Hi. rewrite length_ring_contents in Hi.
    now rewrite nth_ring_contents, Hn.
Qed.

Lemma unread_lt d : unread d < BUF_SIZE.
Proof. unfold unread, BUF_SIZE. mod_lia. Qed.

Lemma unread_zero d : ring_ok d -> (unread d = 0 <-> buffer_head d = buffer_tail d).
Proof. unfold ring_ok, unread, BUF_SIZE. intros (_ & H & T). mod_lia. Qed.

Lemma ring_contents_empty d :
  ring_ok d -> (buffer_head d = buffer_tail d <-> ring_contents d = []).
Proof.
  intros Hok. rewrite <- (unread_zero d Hok), <- length_ring_contents.
  split; [apply length_zero_iff_nil | intros ->; reflexivity].
Qed.

Lemma enqueue_byte_ok b d : ring_ok d -> ring_ok (snd (enqueue_byte b d)).
Proof.
  unfold ring_ok, enqueue_byte. intros (HL & Hh & Ht).
  destruct (_ =? _); cbn [snd uart_buffer buffer_head buffer_tail];
    unfold List.upd; rewrite List.upds_length;
    unfold BUF_SIZE in *; repeat split; try assumption; mod_lia.
Qed.

(** Writing one byte appends it; when that fills the ring the oldest byte
    goes. *)
Lemma enqueue_byte_contents b d :
  ring_ok d ->
  ring_contents (snd (enqueue_byte b d)) = keep_last (ring_contents d ++ [b]).
Proof.
  intros (HL & Hh & Ht).
  assert (Hc : length (ring_contents d ++ [b]) = unread d + 1)
    by (rewrite length_app, length_ring_contents; reflexivity).
  pose proof (length_ring_contents d) as Hlc.
  assert (Hget : forall j, j <= unread d ->
            nth j (ring_contents d ++ [b]) x00
            = nth ((buffer_tail d + j) mod BUF_SIZE)
                  (List.upd (uart_buffer d) (buffer_head d) b) x00).
  { intros j Hj. destruct (Nat.eq_dec j (unread d)) as [-> | Hne].
    - rewrite app_nth2, Hlc, Nat.sub_diag by lia. cbn [nth].
      replace ((buffer_tail d + unread d) mod BUF_SIZE) with (buffer_head d)
        by (unfold unread, BUF_SIZE in *; mod_lia).
      now rewrite List.nth_upd_same by lia.
    - rewrite app_nth1, nth_ring_contents by lia.
      rewrite List.nth_upd_diff; [reflexivity|].
      unfold unread, BUF_SIZE in *. mod_lia. }
  unfold enqueue_byte.
  destruct (Nat.eqb_spec ((buffer_head d + 1) mod BUF_SIZE) (buffer_tail d))
    as [E | E]; cbn [snd]; apply ring_contents_ext;
    unfold keep_last; rewrite ?length_skipn, ?Hc;
    unfold unread, BUF_SIZE in *;
    cbn [uart_buffer buffer_head buffer_tail] in *;
    try mod_lia;
    intros i Hi; rewrite nth_skipn, Hget by mod_lia;
    f_equal; mod_lia.
Qed.

(** Reading one byte takes the oldest. *)
Lemma dequeue_byte_contents d :
  ring_ok d -> buffer_head d <> buffer_tail d ->
  ring_contents d = fst (dequeue_byte d) :: ring_contents (snd (dequeue_byte d)).
Proof.
  intros (HL & Hh & Ht) Hne. apply ring_contents_ext.
  - cbn [length]. rewrite length_ring_contents.
    unfold dequeue_byte, unread, BUF_SIZE in *.
    cbn [snd uart_buffer buffer_head buffer_tail]. mod_lia.
  - intros [|i] Hi.
    + cbn [nth dequeue_byte fst]. f_equal. unfold BUF_SIZE in *. mod_lia.
    + cbn [nth]. rewrite nth_ring_contents.
      * unfold dequeue_byte. cbn [snd uart_buffer buffer_head buffer_tail].
        f_equal. unfold BUF_SIZE in *. mod_lia.
      * unfold dequeue_byte, unread, BUF_SIZE in *.
        cbn [snd uart_buffer buffer_head buffer_tail]. mod_lia.
Qed.

Lemma dequeue_byte_ok d : ring_ok d -> ring_ok (snd (dequeue_byte d)).
Proof.
  unfold ring_ok, dequeue_byte. intros (HL & Hh & Ht).
  cbn [snd uart_buffer buffer_head buffer_tail].
  unfold BUF_SIZE in *. repeat split; try assumption. mod_lia.
Qed.

Lemma keep_last_small l : length l <= BUF_SIZE - 1 -> keep_last l = l.
Proof.
  intros H. unfold keep_last.
  now replace (length l - (BUF_SIZE - 1)) with 0 by lia.
Qed.

Lemma length_keep_last l :
  length (keep_last l) = Nat.min (length l) (BUF_SIZE - 1).
Proof. unfold keep_last. rewrite length_skipn. lia. Qed.

(** Dropping early or late leaves the same newest bytes. *)
Lemma keep_last_app l m : keep_last (keep_last l ++ m) = keep_last (l ++ m).
Proof.
  unfold keep_last at 1 3. rewrite !length_app, length_keep_last.
  unfold keep_last. rewrite !skipn_app, skipn_skipn, length_skipn.
  f_equal; f_equal; lia.
Qed.

Lemma firstn_S_skipn (rx : list byte) i n :
  i < length rx ->
  firstn (S n) (skipn i rx) = nth i rx x00 :: firstn n (skipn (S i) rx).
Proof.
  revert i. induction rx as [|a rx IH]; intros i H; cbn [length] in H; [lia|].
  destruct i as [|i]; [reflexivity|].
  cbn [skipn nth]. apply IH. lia.
Qed.

(** One enqueue operation appends its bytes and keeps the newest. *)
Lemma enqueue_loop_contents rx n : forall i d,
  ring_ok d -> i + n <= length rx ->
  ring_ok (snd (enqueue_loop rx i n d))
  /\ ring_contents (snd (enqueue_loop rx i n d))
     = keep_last (ring_contents d ++ firstn n (skipn i rx)).
Proof.
  induction n as [|n IH]; intros i d Hok Hi; cbn [enqueue_loop].
  - cbn [firstn snd]. rewrite app_nil_r, keep_last_small; [auto|].
    rewrite length_ring_contents. pose proof (unread_lt d). lia.
  - pose proof (enqueue_byte_ok (nth i rx x00) d Hok) as Hok1.
    pose proof (enqueue_byte_contents (nth i rx x00) d Hok) as Hc1.
    destruct (enqueue_byte (nth i rx x00) d) as [e1 d1]. cbn [snd] in *.
    destruct (IH (S i) d1 Hok1 ltac:(lia)) as (Hok2 & Hc2).
    destruct (enqueue_loop rx (S i) n d1) as [e2 d2]. cbn [snd] in *.
    split; [assumption|].
    rewrite Hc2, Hc1, keep_last_app, firstn_S_skipn by lia.
    now rewrite <- app_assoc.
Qed.

Lemma enqueue_all_contents ops : forall d,
  ring_ok d ->
  ring_ok (enqueue_all ops d)
  /\ ring_contents (enqueue_all ops d)
     = keep_last (ring_contents d ++ concat ops).
Proof.
  induction ops as [|bs ops IH]; intros d Hok; cbn [enqueue_all concat].
  - rewrite app_nil_r, keep_last_small; [auto|].
    rewrite length_ring_contents. pose proof (unread_lt d). lia.
  - destruct (enqueue_loop_contents bs (length bs) 0 d Hok ltac:(lia))
      as (Hok1 & Hc1).
    destruct (IH _ Hok1) as (Hok2 & Hc2). split; [assumption|].
    rewrite Hc2, Hc1, keep_last_app. cbn [skipn].
    now rewrite firstn_all, app_assoc.
Qed.

(** The copy loop hands out the oldest bytes first, at most [todo]. *)
Lemma read_loop_fifo fault todo : forall k d,
  ring_ok d -> (forall i, fault i = false) ->
  let r := read_loop todo fault k d in
  r_user r = firstn todo (ring_contents d)
  /\ ring_contents (r_after r) = skipn todo (ring_contents d)
  /\ r_ret r = Z.of_nat (k + length (r_user r))
  /\ ring_ok (r_after r).
Proof.
  induction todo as [|todo IH]; intros k d Hok Hf; cbn [read_loop].
  - cbv zeta. cbn [r_ret r_user r_after firstn skipn length].
    rewrite Nat.add_0_r. auto.
  - destruct (Nat.eqb_spec (buffer_head d) (buffer_tail d)) as [E | E].
    + cbv zeta. cbn [r_ret r_user r_after].
      rewrite (proj1 (ring_contents_empty d Hok) E).
      cbn [firstn skipn length]. rewrite Nat.add_0_r. auto.
    + rewrite Hf.
      pose proof (dequeue_byte_contents d Hok E) as Hc.
      pose proof (dequeue_byte_ok d Hok) as Hok1.
      destruct (dequeue_byte d) as [b d1]. cbn [fst snd] in *.
      destruct (IH (S k) d1 Hok1 Hf) as (Hu & Ha & Hr & Hok2).
      cbv zeta. cbn [r_ret r_user r_after]. rewrite Hc, Hr, Hu, Ha.
      cbn [firstn skipn length].
      split; [reflexivity|]. split; [reflexivity|]. split; [|assumption].
      f_equal. lia.
Qed.

(** ** Drop-oldest and FIFO *)

(** C4. After any sequence of enqueue operations the ring holds the newest
    2047 bytes of everything that was in it or was written to it: when
    that stream is longer, exactly its oldest bytes are gone.  A read
    then returns what remains oldest first, in the order of writing. *)
Theorem queue_drop_oldest_fifo (d : shared) (ops : list (list byte)) :
  ring_ok d ->
  let stream := ring_contents d ++ concat ops in
  let dropped := length stream - (BUF_SIZE - 1) in
  let d' := enqueue_all ops d in
  ring_ok d'
  /\ ring_contents d' = skipn dropped stream
  /\ stream = firstn dropped stream ++ ring_contents d'
  /\ (BUF_SIZE - 1 < length stream ->
      0 < dropped
      /\ length (ring_contents d') = BUF_SIZE - 1
      /\ forall nonblock count fault w,
          (forall i, fault i = false) ->
          let r := uart_misc_read nonblock count fault w d' in
          r_user r = firstn count (skipn dropped stream)
          /\ ring_contents (r_after r) = skipn count (skipn dropped stream)
          /\ r_ret r = Z.of_nat (length (r_user r))).
Proof.
  intros Hok stream dropped d'.
  destruct (enqueue_all_contents ops d Hok) as (Hok' & Hc).
  fold d' stream in Hok', Hc. unfold keep_last in Hc. fold dropped in Hc.
  split; [assumption|]. split; [assumption|].
  split; [rewrite Hc; symmetry; apply firstn_skipn|].
  intros Hlong.
  assert (Hlen : length (ring_contents d') = BUF_SIZE - 1)
    by (rewrite Hc, length_skipn; unfold dropped; lia).
  split; [unfold dropped; lia|]. split; [assumption|].
  intros nonblock count fault w Hf. unfold uart_misc_read.
  destruct (Nat.eqb_spec (buffer_head d') (buffer_tail d')) as [E | E].
  - apply (ring_contents_empty d' Hok') in E. rewrite E in Hlen.
    cbn [length] in Hlen. unfold BUF_SIZE in Hlen. lia.
  - destruct (read_loop_fifo fault count 0 d' Hok' Hf) as (Hu & Ha & Hr & _).
    rewrite <- Hc. auto.
Qed.

Lemma queue_drop_oldest_fifo_witness :
  r_user (uart_misc_read true 9 (fun _ => false) Interrupted
                         (enqueue_all burst init_shared))
  = [x01; x01; x01; x01; x01; x01; x01; x02; x02].
Proof.
  destruct (queue_drop_oldest_fifo init_shared burst ring_ok_init)
    as (_ & _ & _ & H).
  destruct H as (_ & _ & R).
  - vm_compute. lia.
  - destruct (R true 9 (fun _ => false) Interrupted (fun _ => eq_refl))
      as (U & _).
    rewrite U. vm_compute. reflexivity.
Defined.

(** ** The ring invariant *)

Lemma ring_ok_inv d : ring_ok d -> ring_inv d.
Proof.
  intros Hok. split; [assumption|]. split.
  - now apply ring_contents_empty.
  - rewrite length_ring_contents. pose proof (unread_lt d). lia.
Qed.

(** C10. The invariant (both cursors below 2048, head equal to tail
    exactly when nothing is unread, never more than 2047 unread bytes)
    holds at start-up and is kept by the producer's step for one byte and
    by the consumer's step for one byte; the first appends the byte and
    drops the oldest one if the ring was full, the second removes the
    oldest byte. *)
Theorem ring_invariant_preserved :
  ring_inv init_shared
  /\ (forall d b,
        ring_inv d ->
        ring_inv (snd (enqueue_byte b d))
        /\ ring_contents (snd (enqueue_byte b d))
           = keep_last (ring_contents d ++ [b]))
  /\ (forall d,
        ring_inv d -> buffer_head d <> buffer_tail d ->
        ring_inv (snd (dequeue_byte d))
        /\ ring_contents d
           = fst (dequeue_byte d) :: ring_contents (snd (dequeue_byte d))).
Proof.
  split; [apply ring_ok_inv, ring_ok_init|]. split.
  - intros d b (Hok & _). split.
    + apply ring_ok_inv, enqueue_byte_ok, Hok.
    + apply enqueue_byte_contents, Hok.
  - intros d (Hok & _) Hne. split.
    + apply ring_ok_inv, dequeue_byte_ok, Hok.
    + apply dequeue_byte_contents; assumption.
Qed.

Lemma ring_invariant_preserved_witness :
  ring_inv (snd (enqueue_byte x41 init_shared))
  /\ ring_inv (snd (dequeue_byte (snd (enqueue_byte x41 init_shared)))).
Proof.
  destruct ring_invariant_preserved as (I & E & D).
  destruct (E init_shared x41 I) as (I1 & _).
  split; [exact I1|].
  destruct (D (snd (enqueue_byte x41 init_shared)) I1) as (I2 & _).
  - vm_compute. lia.
  - exact I2.
Defined.

(** ** Interrupted reads *)

(** C6 fails on the code: a blocking read of an empty ring whose sleep is
    ended by a signal drops the [-ERESTARTSYS] of the wait, finds the ring
    still empty and returns 0, which is also what a successful read of
    zero bytes returns. *)
Theorem interrupted_read_returns_zero (count : nat) (fault : nat -> bool)
        (d : shared) :
  buffer_head d = buffer_tail d ->
  let r := uart_misc_read false count fault Interrupted d in
  fst (wait_event_interruptible Interrupted d) = (- ERESTARTSYS)%Z
  /\ r_ret r = 0%Z /\ r_user r = [] /\ r_after r = d
  /\ r_ret r <> (- ERESTARTSYS)%Z
  /\ (forall nonblock w d',
        buffer_head d' <> buffer_tail d' ->
        r_ret (uart_misc_read nonblock 0 fault w d') = r_ret r).
Proof.
  intros E. unfold uart_misc_read. apply Nat.eqb_eq in E. rewrite E.
  cbn [wait_event_interruptible fst].
  assert (R : read_loop count fault 0 d = mkRead 0 [] d)
    by (destruct count; cbn [read_loop]; rewrite ?E; reflexivity).
  rewrite R. cbn [r_ret r_user r_after]. repeat split; try discriminate.
  intros nonblock w d' Hne. apply Nat.eqb_neq in Hne. now rewrite Hne.
Qed.

Lemma interrupted_read_returns_zero_witness :
  r_ret (uart_misc_read false 16 (fun _ => false) Interrupted init_shared)
  = 0%Z.
Proof.
  exact (proj1 (proj2 (interrupted_read_returns_zero 16 (fun _ => false)
                         init_shared eq_refl))).
Defined.

(** ** The write path *)

Section Conversions.
Variable BITS_PER_LONG : Z.
Hypothesis Hbits : (32 <= BITS_PER_LONG)%Z.

Lemma pow_long :
  (2 ^ BITS_PER_LONG = 2 * 2 ^ (BITS_PER_LONG - 1)
   /\ 2 ^ 31 <= 2 ^ (BITS_PER_LONG - 1))%Z.
Proof.
  split.
  - rewrite <- Z.pow_succ_r by lia. f_equal. lia.
  - apply Z.pow_le_mono_r; lia.
Qed.

(** A 32-bit [int], widened and returned, keeps its value. *)
Lemma ssize_t_of_int z :
  (- 2 ^ 31 <= z < 2 ^ 31)%Z ->
  to_ssize_t BITS_PER_LONG (to_size_t BITS_PER_LONG z) = z.
Proof.
  intros Hz. unfold to_ssize_t, to_size_t.
  destruct pow_long as [-> Hle]. set (P := (2 ^ (BITS_PER_LONG - 1))%Z) in *.
  destruct (Z.neg_nonneg_cases z) as [Hneg | Hpos].
  - rewrite <- (Z.mod_unique z (2 * P) (-1) (z + 2 * P)) by lia.
    rewrite <- (Z.mod_unique (z + 2 * P + P) (2 * P) 1 (z + P)) by lia.
    lia.
  - rewrite (Z.mod_small z) by lia.
    rewrite Z.mod_small by lia. lia.
Qed.

End Conversions.

(** C7, as stated, fails: when the transport accepts 3 of 5 bytes the
    write still returns 5. *)
Lemma write_returns_transport_answer_fails : ~ write_returns_transport_answer.
Proof.
  intros H.
  destruct (H true true (fun _ => 3%Z) [x68; x65; x6c; x6c; x6f]) as [_ R].
  - discriminate.
  - lia.
  - vm_compute in R. discriminate.
Qed.

(** The other way the claim fails: a faulting copy ends the call before
    the transport is reached. *)
Example write_copy_fault :
  uart_misc_write 32 true false (fun _ => 5%Z) [x68; x65; x6c; x6c; x6f]
  = mkWrite (- EFAULT) [].
Proof. reflexivity. Qed.

(** C7 (amended). For a non-empty buffer that reaches the kernel copy
    (the allocation, needed above 128 bytes, and [copy_from_user] both
    succeed) the transport is called once with the whole buffer; a
    negative answer is returned unchanged, any other answer makes the
    write return the full byte count.  Otherwise the transport is not
    called and the write returns [-ENOMEM] or [-EFAULT]. *)
Theorem write_forwards (BITS_PER_LONG : Z) (kmalloc_ok copy_ok : bool)
        (send : list byte -> Z) (buf : list byte) :
  (32 <= BITS_PER_LONG)%Z ->
  buf <> [] ->
  (Z.of_nat (length buf) < 2 ^ 31)%Z ->
  (- 2 ^ 31 <= send buf < 2 ^ 31)%Z ->
  let r := uart_misc_write BITS_PER_LONG kmalloc_ok copy_ok send buf in
  let reaches := ((length buf <=? 128) || kmalloc_ok) && copy_ok in
  (reaches = true ->
   w_sent r = [buf]
   /\ ((send buf < 0)%Z -> w_ret r = send buf)
   /\ ((0 <= send buf)%Z -> w_ret r = Z.of_nat (length buf)))
  /\ (reaches = false ->
      w_sent r = []
      /\ (w_ret r = (- ENOMEM)%Z \/ w_ret r = (- EFAULT)%Z)).
Proof.
  intros Hbits Hne Hcount Hret. unfold uart_misc_write.
  destruct buf as [|b buf]; [congruence|].
  set (count := length (b :: buf)) in *.
  replace (count =? 0) with false by reflexivity.
  replace (128 <? count) with (negb (count <=? 128))
    by (rewrite Nat.leb_antisym; now destruct (128 <? count)).
  destruct (count <=? 128), kmalloc_ok, copy_ok; cbn [negb andb orb];
    cbv zeta; cbn [w_sent w_ret]; split; intros R; try discriminate R; auto.
  all: split; [reflexivity|]; split; intros Hs.
  all: try (apply Z.ltb_lt in Hs; rewrite Hs; now apply ssize_t_of_int).
  all: apply Z.ltb_ge in Hs; rewrite Hs; apply ssize_t_of_int; lia.
Qed.

Lemma write_forwards_witness :
  let r := uart_misc_write 32 true true (fun _ => 3%Z)
                           [x68; x65; x6c; x6c; x6f] in
  w_sent r = [[x68; x65; x6c; x6c; x6f]] /\ w_ret r = 5%Z.
Proof.
  destruct (write_forwards 32 true true (fun _ => 3%Z)
              [x68; x65; x6c; x6c; x6f]) as [H _].
  - lia.
  - discriminate.
  - cbn. lia.
  - lia.
  - destruct (H eq_refl) as (S & _ & R). split; [exact S | apply R; lia].
Defined.

(** * Further properties *)

(** ** What one loop iteration does *)

Lemma split_frame (l : list byte) n :
  l = firstn 4 l ++ firstn 2 (skipn 4 l) ++ firstn 2 (skipn 6 l)
      ++ firstn n (skipn 8 l) ++ skipn (8 + n) l.
Proof.
  rewrite <- (firstn_skipn 4 l) at 1. f_equal.
  rewrite <- (firstn_skipn 2 (skipn 4 l)) at 1. f_equal.
  rewrite skipn_skipn. cbn [Nat.add].
  rewrite <- (firstn_skipn 2 (skipn 6 l)) at 1. f_equal.
  rewrite skipn_skipn. cbn [Nat.add].
  rewrite <- (firstn_skipn n (skipn 8 l)) at 1. f_equal.
  rewrite skipn_skipn. f_equal. lia.
Qed.

Lemma load_le_split n off l :
  off + n <= length l ->
  le_split n (load_le n off l) = firstn n (skipn off l).
Proof.
  intros H. unfold load_le.
  assert (L : length (firstn n (skipn off l)) = n)
    by (rewrite length_firstn, length_skipn; lia).
  rewrite <- L at 1. apply split_le_combine.
Qed.

Lemma load_le_range n off l :
  (0 <= load_le n off l < 2 ^ (8 * Z.of_nat n))%Z.
Proof.
  unfold load_le.
  pose proof (le_combine_bound (firstn n (skipn off l))) as B.
  assert (L : length (firstn n (skipn off l)) <= n)
    by (rewrite length_firstn; lia).
  assert (2 ^ (8 * Z.of_nat (length (firstn n (skipn off l))))
          <= 2 ^ (8 * Z.of_nat n))%Z by (apply Z.pow_le_mono_r; lia).
  lia.
Qed.

(** An iteration that continues either discards one byte in front of
    which no signature stands, or removes the encoding of a well-formed
    frame and delivers that frame. *)
Lemma scan_cases l d e l' d' :
  scan l d = Some (e, l', d') ->
  (e = [Printk BadSignature] /\ l' = skipn 1 l /\ d' = d
   /\ HEADER_SIZE <= length l /\ load_le 4 0 l <> PACKET_SIGNATURE)
  \/ (exists f, well_formed f /\ l = encode f ++ l'
        /\ e = Handed (f_type f) (f_payload f) :: fst (deliver f d)
        /\ d' = snd (deliver f d)).
Proof.
  rewrite scan_eq. unfold HEADER_SIZE.
  destruct (length l <? 8) eqn:E8; [discriminate|]. apply Nat.ltb_ge in E8.
  destruct (Z.eqb_spec (load_le 4 0 l) PACKET_SIGNATURE) as [Hs | Hs];
    cbn [negb]; cbv zeta.
  2:{ intros [= <- <- <-]. left. auto. }
  set (t := load_le 2 4 l). set (n := Z.to_nat (load_le 2 6 l)).
  destruct (length l <? 8 + n) eqn:En; [discriminate|]. apply Nat.ltb_ge in En.
  set (p := firstn n (skipn 8 l)).
  assert (Lp : length p = n)
    by (unfold p; rewrite length_firstn, length_skipn; lia).
  pose proof (load_le_range 2 4 l) as Rt. fold t in Rt.
  pose proof (load_le_range 2 6 l) as Rn.
  change (8 * Z.of_nat 2)%Z with 16%Z in Rt, Rn.
  assert (Hn : Z.of_nat n = load_le 2 6 l) by (unfold n; lia).
  assert (Henc : l = encode (mkFrame t p) ++ skipn (8 + n) l).
  { unfold encode. cbn [f_type f_payload]. rewrite Lp, Hn, <- Hs.
    unfold t. rewrite !load_le_split by lia. cbn [skipn].
    rewrite <- !app_assoc. apply split_frame. }
  assert (W : well_formed (mkFrame t p))
    by (split; cbn [f_type f_payload]; lia).
  assert (Hd : dispatch t n l d = deliver (mkFrame t p) d).
  { unfold deliver. cbn [f_type f_payload]. rewrite Lp.
    apply (dispatch_agree l (encode (mkFrame t p)) (8 + n));
      [|unfold HEADER_SIZE; lia].
    assert (Le : length (encode (mkFrame t p)) = 8 + n)
      by (rewrite length_encode; cbn [f_payload]; now rewrite Lp).
    rewrite Henc at 1.
    rewrite firstn_app, Le, Nat.sub_diag, firstn_0, app_nil_r.
    now rewrite <- Le, !firstn_all. }
  rewrite Hd. destruct (deliver (mkFrame t p) d) as [evs d1] eqn:Ed.
  intros [= <- <- <-]. right. exists (mkFrame t p). rewrite Ed.
  split; [exact W|]. split; [exact Henc|]. split; reflexivity.
Qed.

(** The three ways one call of the callback can go. *)
Lemma uart_receive_buf_cases data s :
  stage_ok s ->
  let o := uart_receive_buf data s in
  (data = [] /\ o = mkOutcome 0 [Printk InvalidParams] s)
  \/ (RX_BUFFER_SIZE < rx_buffer_pos s + length data
      /\ o = mkOutcome 0 [Printk RxOverflow] (mkState (rx_buffer s) 0 (sh s)))
  \/ (data <> [] /\ rx_buffer_pos s + length data <= RX_BUFFER_SIZE
      /\ drain (staged s ++ data) (sh s) (trace o)
               (staged (after o)) (sh (after o))
      /\ stage_ok (after o) /\ ret o = Z.of_nat (length data)).
Proof.
  intros Hok. cbv zeta.
  destruct data as [|b data]; [left; auto | right].
  destruct (Nat.lt_ge_cases RX_BUFFER_SIZE (rx_buffer_pos s + length (b :: data)))
    as [Hover | Hroom].
  - left. split; [exact Hover|]. unfold uart_receive_buf.
    apply Nat.ltb_lt in Hover. cbn [length Nat.eqb] in *. now rewrite Hover.
  - right. split; [discriminate|]. split; [exact Hroom|].
    exact (uart_receive_buf_drain (b :: data) s Hok ltac:(discriminate) Hroom).
Qed.

(** ** Events of a delivery *)

Lemma wakeups_app e1 e2 : wakeups (e1 ++ e2) = wakeups e1 + wakeups e2.
Proof.
  induction e1 as [|[m|t p|] e1 IH]; cbn [app wakeups]; auto.
  now rewrite IH.
Qed.

Lemma discarded_app e1 e2 :
  discarded (e1 ++ e2) = discarded e1 + discarded e2.
Proof.
  induction e1 as [|[[]|t p|] e1 IH]; cbn [app discarded]; auto.
  now rewrite IH.
Qed.

Lemma enqueue_loop_events rx n : forall i d,
  wakeups (fst (enqueue_loop rx i n d)) = 0
  /\ discarded (fst (enqueue_loop rx i n d)) = 0
  /\ mirror (snd (enqueue_loop rx i n d)) = mirror d.
Proof.
  induction n as [|n IH]; intros i d; cbn [enqueue_loop]; [auto|].
  assert (H1 : wakeups (fst (enqueue_byte (nth i rx x00) d)) = 0
               /\ discarded (fst (enqueue_byte (nth i rx x00) d)) = 0
               /\ mirror (snd (enqueue_byte (nth i rx x00) d)) = mirror d)
    by (unfold enqueue_byte; destruct (_ =? _); auto).
  destruct (enqueue_byte (nth i rx x00) d) as [e1 d1].
  specialize (IH (S i) d1).
  destruct (enqueue_loop rx (S i) n d1) as [e2 d2]. cbn [fst snd] in *.
  destruct H1 as (W1 & D1 & M1), IH as (W2 & D2 & M2).
  rewrite wakeups_app, discarded_app, W1, W2, D1, D2, M2, M1. auto.
Qed.

(** A delivery wakes the reader once when the frame is forwarded and
    not at all when it is a state update; it never logs a discarded
    byte. *)
Lemma deliver_events f d :
  wakeups (fst (deliver f d)) = (if (f_type f =? 4)%Z then 0 else 1)
  /\ discarded (fst (deliver f d)) = 0.
Proof.
  unfold deliver, dispatch. destruct (f_type f =? 4)%Z.
  - destruct (2 <=? length (f_payload f)); auto.
  - destruct (enqueue_loop_events (encode f)
                (HEADER_SIZE + length (f_payload f)) 0 d) as (W & D & _).
    destruct (enqueue_loop _ _ _ _) as [evs d']. cbn [fst wakeups discarded] in *.
    rewrite wakeups_app, discarded_app, W, D. auto.
Qed.

Lemma deliver_mirror f d :
  mirror (snd (deliver f d))
  = mirror_step (mirror d) (f_type f, f_payload f).
Proof.
  unfold deliver, dispatch, mirror_step. cbn [fst snd].
  destruct (f_type f =? 4)%Z.
  - rewrite encode_cons. unfold HEADER_SIZE.
    destruct (f_payload f) as [|r [|v p]]; reflexivity.
  - destruct (enqueue_loop_events (encode f)
                (HEADER_SIZE + length (f_payload f)) 0 d) as (_ & _ & M).
    now destruct (enqueue_loop _ _ _ _).
Qed.

Lemma deliver_ring f d :
  ring_ok d ->
  ring_ok (snd (deliver f d))
  /\ ring_contents (snd (deliver f d))
     = keep_last (ring_contents d
                  ++ if (f_type f =? 4)%Z then [] else encode f).
Proof.
  intros Hok. unfold deliver, dispatch.
  assert (Hsame : keep_last (ring_contents d ++ []) = ring_contents d).
  { rewrite app_nil_r. apply keep_last_small.
    rewrite length_ring_contents. pose proof (unread_lt d). lia. }
  destruct (f_type f =? 4)%Z.
  - destruct (2 <=? length (f_payload f)); cbn [snd]; [|auto].
    split; [exact Hok | rewrite Hsame; reflexivity].
  - destruct (enqueue_loop_contents (encode f)
                (HEADER_SIZE + length (f_payload f)) 0 d Hok) as (Hok' & Hc).
    { rewrite length_encode. lia. }
    destruct (enqueue_loop _ _ _ _) as [evs d']. cbn [snd skipn] in *.
    split; [exact Hok'|]. rewrite Hc. f_equal. f_equal.
    rewrite <- length_encode. apply firstn_all.
Qed.

Lemma deliver_all_app fs1 fs2 d :
  snd (deliver_all (fs1 ++ fs2) d)
  = snd (deliver_all fs2 (snd (deliver_all fs1 d))).
Proof.
  revert d. induction fs1 as [|f fs1 IH]; intros d; cbn [app deliver_all];
    [reflexivity|].
  destruct (deliver f d) as [e1 d1]. specialize (IH d1).
  destruct (deliver_all (fs1 ++ fs2) d1) as [e2 d2].
  destruct (deliver_all fs1 d1) as [e3 d3]. exact IH.
Qed.

Lemma mirror_deliver_all fs : forall d,
  mirror (snd (deliver_all fs d))
  = mirror_after (map (fun f => (f_type f, f_payload f)) fs) (mirror d).
Proof.
  induction fs as [|f fs IH]; intros d; cbn [deliver_all map]; [reflexivity|].
  pose proof (deliver_mirror f d) as M.
  destruct (deliver f d) as [e1 d1]. specialize (IH d1).
  destruct (deliver_all fs d1) as [e2 d2]. cbn [snd] in *.
  unfold mirror_after in *. cbn [fold_left]. now rewrite IH, M.
Qed.

Lemma forwarded_cons h hs :
  forwarded (h :: hs)
  = (if (fst h =? 4)%Z then [] else encode (frame_of h)) ++ forwarded hs.
Proof.
  unfold forwarded, not_state_update. cbn [filter].
  now destruct (fst h =? 4)%Z.
Qed.

Lemma ring_deliver_all fs : forall d,
  ring_ok d ->
  ring_ok (snd (deliver_all fs d))
  /\ ring_contents (snd (deliver_all fs d))
     = keep_last (ring_contents d
                  ++ forwarded (map (fun f => (f_type f, f_payload f)) fs)).
Proof.
  induction fs as [|f fs IH]; intros d Hok; cbn [deliver_all map].
  - cbn [snd]. split; [exact Hok|]. unfold forwarded. cbn [filter map concat].
    rewrite app_nil_r. symmetry. apply keep_last_small.
    rewrite length_ring_contents. pose proof (unread_lt d). lia.
  - destruct (deliver_ring f d Hok) as (Hok1 & Hc1).
    destruct (deliver f d) as [e1 d1]. cbn [snd] in *.
    destruct (IH d1 Hok1) as (Hok2 & Hc2).
    destruct (deliver_all fs d1) as [e2 d2]. cbn [snd] in *.
    split; [exact Hok2|].
    rewrite Hc2, Hc1, keep_last_app, forwarded_cons, <- app_assoc.
    cbn [fst]. unfold frame_of. cbn [fst snd]. now destruct f.
Qed.

(** ** What a drain amounts to *)

Lemma frame_of_pair f : frame_of (f_type f, f_payload f) = f.
Proof. now destruct f. Qed.

Lemma delivered_bytes_cons h hs :
  delivered_bytes (h :: hs)
  = HEADER_SIZE + length (snd h) + delivered_bytes hs.
Proof. reflexivity. Qed.

(** Draining delivers the handed frames in order, hands over only
    well-formed frames that were staged whole, accounts for every staged
    byte and wakes the reader once per forwarded frame. *)
Lemma drain_summary l d e r d' :
  drain l d e r d' ->
  d' = snd (deliver_all (map frame_of (handed e)) d)
  /\ Forall (fun h => well_formed (frame_of h)
                      /\ HEADER_SIZE + length (snd h) <= length l)
            (handed e)
  /\ length l = discarded e + delivered_bytes (handed e) + length r
  /\ wakeups e = length (filter not_state_update (handed e)).
Proof.
  induction 1 as [l d Hs | l d e l1 d1 es l2 d2 Hs _ IH].
  - cbn. repeat split; auto.
  - destruct IH as (Hd & Hfit & Hacc & Hw).
    pose proof (scan_shorter _ _ _ _ _ Hs) as Hlt.
    assert (Hfit' : Forall (fun h => well_formed (frame_of h)
                              /\ HEADER_SIZE + length (snd h) <= length l)
                           (handed es)).
    { eapply Forall_impl; [|exact Hfit]. cbn beta. intros h [? ?].
      split; [assumption | lia]. }
    destruct (scan_cases _ _ _ _ _ Hs)
      as [(-> & -> & -> & H8 & _) | (f & W & -> & -> & ->)].
    + cbn [app handed discarded wakeups]. rewrite length_skipn in Hacc.
      unfold HEADER_SIZE in H8. repeat split; auto. lia.
    + destruct (deliver_events f d) as (Wk & Dc).
      pose proof (handed_dispatch (f_type f) (length (f_payload f))
                    (encode f) d) as Hh.
      fold (deliver f d) in Hh.
      cbn [app handed discarded wakeups].
      rewrite handed_app, wakeups_app, discarded_app, Hh, Wk, Dc.
      cbn [app map filter deliver_all]. rewrite frame_of_pair.
      rewrite length_app, length_encode in *.
      destruct (deliver f d) as [e1 d3]. cbn [fst snd] in *.
      split; [now destruct (deliver_all _ d3)|].
      split; [constructor; [split; [exact W | cbn [snd]; lia] | exact Hfit']|].
      split; [rewrite delivered_bytes_cons; cbn [snd]; lia|].
      unfold not_state_update at 1. cbn [fst].
      destruct (f_type f =? 4)%Z; cbn [negb length]; lia.
Qed.

(** ** Calls and runs in general *)

Lemma pair_frame_of h : (f_type (frame_of h), f_payload (frame_of h)) = h.
Proof. now destruct h. Qed.

Lemma map_pair_frame_of hs :
  map (fun f => (f_type f, f_payload f)) (map frame_of hs) = hs.
Proof.
  rewrite map_map. rewrite <- (map_id hs) at 2.
  apply map_ext. intros h. apply pair_frame_of.
Qed.

Lemma call_summary data s :
  stage_ok s ->
  let o := uart_receive_buf data s in
  stage_ok (after o)
  /\ sh (after o) = snd (deliver_all (map frame_of (handed (trace o))) (sh s))
  /\ Forall fits_staging (handed (trace o))
  /\ wakeups (trace o) = length (filter not_state_update (handed (trace o))).
Proof.
  intros Hok.
  destruct (uart_receive_buf_cases data s Hok)
    as [(_ & E) | [(_ & E) | (_ & Hroom & D & Hok' & _)]]; cbv zeta.
  - rewrite E. cbn [after trace sh handed map deliver_all snd wakeups filter].
    auto.
  - rewrite E. cbn [after trace sh handed map deliver_all snd wakeups filter].
    destruct Hok as [HL _].
    split; [split; [exact HL | apply Nat.le_0_l]|]. auto.
  - destruct (drain_summary _ _ _ _ _ D) as (Hd & Hfit & _ & Hw).
    repeat split; auto; try apply Hok'.
    eapply Forall_impl; [|exact Hfit]. cbn beta. intros h [W L].
    split; [exact W|].
    rewrite length_app, (length_staged s (stage_ok_fits s Hok)) in L. lia.
Qed.

Lemma run_summary chunks : forall s,
  stage_ok s ->
  stage_ok (snd (feed_all chunks s))
  /\ sh (snd (feed_all chunks s))
     = snd (deliver_all (map frame_of (handed (fst (feed_all chunks s))))
                        (sh s))
  /\ Forall fits_staging (handed (fst (feed_all chunks s)))
  /\ wakeups (fst (feed_all chunks s))
     = length (filter not_state_update (handed (fst (feed_all chunks s)))).
Proof.
  induction chunks as [|c cs IH]; intros s Hok; cbn [feed_all].
  - cbn [fst snd handed map deliver_all wakeups filter length]. auto.
  - destruct (call_summary c s Hok) as (Hok1 & Hd1 & Hf1 & Hw1).
    destruct (IH _ Hok1) as (Hok2 & Hd2 & Hf2 & Hw2).
    destruct (feed_all cs (after (uart_receive_buf c s))) as [evs s'].
    cbn [fst snd] in *.
    rewrite handed_app, wakeups_app, map_app, filter_app, length_app,
      deliver_all_app, <- Hd1, <- Hd2, Hw1, Hw2.
    repeat split; auto; try apply Hok2. apply Forall_app. auto.
Qed.

(** ** The receive callback: bounds, rest, chunking *)

(** X1. Whatever bytes arrive, a call of the callback keeps the staging
    array and the ring at their declared size with all cursors in range,
    and returns either 0 or the full byte count. *)
Theorem receive_keeps_bounds (data : list byte) (s : state) :
  stage_ok s -> ring_ok (sh s) ->
  let o := uart_receive_buf data s in
  stage_ok (after o) /\ ring_ok (sh (after o))
  /\ (ret o = 0%Z \/ ret o = Z.of_nat (length data)).
Proof.
  intros Hok Hring. cbv zeta.
  destruct (call_summary data s Hok) as (Hok' & Hd & _).
  split; [exact Hok'|]. split.
  - rewrite Hd. apply ring_deliver_all, Hring.
  - destruct (uart_receive_buf_cases data s Hok)
      as [(_ & ->) | [(_ & ->) | (_ & _ & _ & _ & ->)]]; auto.
Qed.

Lemma receive_keeps_bounds_witness :
  let o := uart_receive_buf (noise ++ encode sample_frame) half_fed in
  stage_ok (after o) /\ ring_ok (sh (after o)).
Proof.
  destruct (receive_keeps_bounds (noise ++ encode sample_frame) half_fed)
    as (H1 & H2 & _).
  - split; [vm_compute; reflexivity | vm_compute; lia].
  - unfold ring_ok. vm_compute. repeat split; lia.
  - cbv zeta. split; assumption.
Defined.

Lemma loop_body_none s :
  loop_body s = None ->
  rx_buffer_pos s < HEADER_SIZE
  \/ (load_le 4 0 (rx_buffer s) = PACKET_SIGNATURE
      /\ rx_buffer_pos s
         < HEADER_SIZE + Z.to_nat (load_le 2 6 (rx_buffer s))).
Proof.
  unfold loop_body.
  destruct (Nat.ltb_spec (rx_buffer_pos s) HEADER_SIZE) as [H8 | H8]; [auto|].
  destruct (Z.eqb_spec (load_le 4 0 (rx_buffer s)) PACKET_SIGNATURE)
    as [Hs | Hs]; cbn [negb]; [|discriminate].
  cbv zeta.
  destruct (Nat.ltb_spec (rx_buffer_pos s)
              (HEADER_SIZE + Z.to_nat (load_le 2 6 (rx_buffer s))))
    as [Hn | Hn]; [auto|].
  now destruct (dispatch _ _ _ _).
Qed.

(** X2. After a call with at least one byte the deframer is at rest:
    running the loop again does nothing, because fewer than eight bytes
    are staged or a valid signature is in front of a frame that is not
    complete yet.  Nothing deliverable and no garbage is left in front. *)
Theorem receive_ends_at_rest (data : list byte) (s : state) :
  stage_ok s -> data <> [] ->
  let s' := after (uart_receive_buf data s) in
  loop_body s' = None
  /\ (forall fuel, deframe_loop fuel s' = ([], s'))
  /\ (rx_buffer_pos s' < HEADER_SIZE
      \/ (load_le 4 0 (rx_buffer s') = PACKET_SIGNATURE
          /\ rx_buffer_pos s'
             < HEADER_SIZE + Z.to_nat (load_le 2 6 (rx_buffer s')))).
Proof.
  intros Hok Hne. cbv zeta.
  assert (E : loop_body (after (uart_receive_buf data s)) = None).
  { destruct (uart_receive_buf_cases data s Hok)
      as [(E & _) | [(_ & ->) | (_ & _ & D & Hok' & _)]].
    - congruence.
    - reflexivity.
    - apply loop_body_stuck; [now apply stage_ok_fits|].
      exact (drain_stuck _ _ _ _ _ D). }
  split; [exact E|]. split.
  - intros fuel. now apply deframe_loop_stuck.
  - now apply loop_body_none.
Qed.

Lemma receive_ends_at_rest_witness :
  loop_body (after (uart_receive_buf
                      (noise ++ encode sample_frame ++ bogus_header)
                      init_state)) = None.
Proof.
  exact (proj1 (receive_ends_at_rest
                  (noise ++ encode sample_frame ++ bogus_header) init_state
                  stage_ok_init ltac:(discriminate))).
Defined.

(** X3. For any byte stream, garbage included: two ways of cutting it
    into calls, neither of which overflows the staging array, hand over
    the same frames and end in the same staged bytes and the same shared
    state. *)
Theorem chunking_irrelevant (s : state) (c1 c2 : list (list byte)) :
  stage_ok s -> loop_body s = None ->
  concat c1 = concat c2 ->
  no_overflow c1 s = true -> no_overflow c2 s = true ->
  handed (fst (feed_all c1 s)) = handed (fst (feed_all c2 s))
  /\ staged (snd (feed_all c1 s)) = staged (snd (feed_all c2 s))
  /\ rx_buffer_pos (snd (feed_all c1 s)) = rx_buffer_pos (snd (feed_all c2 s))
  /\ sh (snd (feed_all c1 s)) = sh (snd (feed_all c2 s)).
Proof.
  intros Hok Hrest Hcat H1 H2.
  assert (Hstuck : scan (staged s) (sh s) = None).
  { pose proof (loop_body_scan s (stage_ok_fits s Hok)) as B.
    now rewrite Hrest in B. }
  destruct (feed_all_drain c1 s Hok Hstuck H1) as (e1 & D1 & Hh1 & Hok1).
  destruct (feed_all_drain c2 s Hok Hstuck H2) as (e2 & D2 & Hh2 & Hok2).
  rewrite Hcat in D1.
  destruct (drain_det _ _ _ _ _ D1 _ _ _ D2) as (-> & Hst & Hsh).
  rewrite Hh1, Hh2. repeat split; auto.
  rewrite <- (length_staged _ (stage_ok_fits _ Hok1)),
          <- (length_staged _ (stage_ok_fits _ Hok2)).
  now rewrite Hst.
Qed.

Lemma chunking_irrelevant_witness :
  handed (fst (feed_all (bytewise (noise ++ encode sample_frame)) init_state))
  = handed (fst (feed_all [noise ++ encode sample_frame] init_state)).
Proof.
  refine (proj1 (chunking_irrelevant init_state
                   (bytewise (noise ++ encode sample_frame))
                   [noise ++ encode sample_frame]
                   stage_ok_init eq_refl _ _ _)).
  - rewrite concat_bytewise. cbn [concat]. now rewrite app_nil_r.
  - vm_compute. reflexivity.
  - vm_compute. reflexivity.
Defined.

(** X4. Whenever an iteration hands a frame over, the staged bytes it
    removes are exactly the encoding of the pair handed over: decoding a
    frame and encoding it again gives back the bytes on the wire, and the
    pair is well-formed (16-bit type, 16-bit length equal to the payload
    length). *)
Theorem handed_frame_round_trip (s s' : state) (t : Z) (p : list byte)
        (evs : list event) :
  fits s ->
  loop_body s = Some (Handed t p :: evs, s') ->
  staged s = encode (mkFrame t p) ++ staged s'
  /\ well_formed (mkFrame t p)
  /\ rx_buffer_pos s' = rx_buffer_pos s - (HEADER_SIZE + length p)
  /\ sh s' = snd (deliver (mkFrame t p) (sh s)).
Proof.
  intros Fs H. pose proof (loop_body_scan s Fs) as B. rewrite H in B.
  destruct B as (Hs & Fs' & _).
  destruct (scan_cases _ _ _ _ _ Hs)
    as [(E & _) | (f & W & Hl & E & Hd)]; [discriminate|].
  injection E as Et Ep _. destruct f as [ft fp].
  cbn [f_type f_payload] in Et, Ep. subst ft fp.
  split; [exact Hl|]. split; [exact W|]. split; [|exact Hd].
  rewrite <- (length_staged s Fs), <- (length_staged s' Fs'), Hl.
  rewrite length_app, length_encode. cbn [f_payload]. lia.
Qed.

Lemma handed_frame_round_trip_witness :
  let s := first_call (encode sample_frame ++ noise) in
  let s' := mkState (memmove (rx_buffer s) 0 11 9) 9
                    (snd (dispatch 7 3 (rx_buffer s) init_shared)) in
  staged s = encode sample_frame ++ staged s'.
Proof.
  intros s s'.
  refine (proj1 (handed_frame_round_trip s s' 7 [x61; x62; x63]
                   (fst (dispatch 7 3 (rx_buffer s) init_shared)) _ _)).
  - unfold fits. vm_compute. lia.
  - vm_compute. reflexivity.
Defined.

(** ** Runs: what the handed frames determine *)

(** X5. In any run, overflowing calls and garbage included, every frame
    handed to the type switch is well-formed and short enough to have
    been staged whole: at most 2040 payload bytes.  A header announcing
    more is never delivered. *)
Theorem handed_frames_fit (chunks : list (list byte)) (s : state) :
  stage_ok s ->
  Forall fits_staging (handed (fst (feed_all chunks s))).
Proof. intros Hok. apply (run_summary chunks s Hok). Qed.

Lemma handed_frames_fit_witness :
  Forall fits_staging (handed (fst (feed_all mixed_run init_state))).
Proof. exact (handed_frames_fit mixed_run init_state stage_ok_init). Defined.

(** X6. In any run the mirrored bytes at the end are those of the last
    handed state update with at least two payload bytes, or the ones at
    the start when there was none: [root_state] and [version] depend on
    the handed frames only. *)
Theorem mirror_follows_handed (chunks : list (list byte)) (s : state) :
  stage_ok s ->
  mirror (sh (snd (feed_all chunks s)))
  = mirror_after (handed (fst (feed_all chunks s))) (mirror (sh s)).
Proof.
  intros Hok. destruct (run_summary chunks s Hok) as (_ & -> & _).
  now rewrite mirror_deliver_all, map_pair_frame_of.
Qed.

Lemma mirror_follows_handed_witness :
  mirror (sh (snd (feed_all mixed_run init_state))) = (x01, x02).
Proof.
  rewrite (mirror_follows_handed mixed_run init_state stage_ok_init).
  vm_compute. reflexivity.
Defined.

(** X7. In any run the ring ends with the newest 2047 bytes of what it
    held followed by the encodings of the handed frames that are not
    state updates, in order: unknown types are forwarded whole, header
    included, and state updates never reach the ring. *)
Theorem ring_follows_handed (chunks : list (list byte)) (s : state) :
  stage_ok s -> ring_ok (sh s) ->
  ring_ok (sh (snd (feed_all chunks s)))
  /\ ring_contents (sh (snd (feed_all chunks s)))
     = keep_last (ring_contents (sh s)
                  ++ forwarded (handed (fst (feed_all chunks s)))).
Proof.
  intros Hok Hring. destruct (run_summary chunks s Hok) as (_ & -> & _).
  destruct (ring_deliver_all
              (map frame_of (handed (fst (feed_all chunks s)))) (sh s) Hring)
    as (H1 & H2).
  split; [exact H1|]. now rewrite H2, map_pair_frame_of.
Qed.

Lemma ring_follows_handed_witness :
  ring_contents (sh (snd (feed_all mixed_run init_state)))
  = encode sample_frame ++ encode sample_frame.
Proof.
  rewrite (proj2 (ring_follows_handed mixed_run init_state stage_ok_init
                    ring_ok_init)).
  vm_compute. reflexivity.
Defined.

(** X8. In any run the reader is woken exactly once per forwarded frame:
    the number of wake-ups equals the number of handed frames whose type
    is not 0x0004. *)
Theorem one_wakeup_per_forwarded_frame (chunks : list (list byte))
        (s : state) :
  stage_ok s ->
  wakeups (fst (feed_all chunks s))
  = length (filter not_state_update (handed (fst (feed_all chunks s)))).
Proof. intros Hok. apply (run_summary chunks s Hok). Qed.

Lemma one_wakeup_per_forwarded_frame_witness :
  wakeups (fst (feed_all mixed_run init_state)) = 2.
Proof.
  rewrite (one_wakeup_per_forwarded_frame mixed_run init_state stage_ok_init).
  vm_compute. reflexivity.
Defined.

(** X9. Every byte of an accepted call is accounted for: the bytes staged
    before plus the bytes of the call equal the bytes discarded one at a
    time (one warning each), plus the bytes of the frames handed over
    (header and payload), plus the bytes still staged. *)
Theorem accepted_bytes_accounted (data : list byte) (s : state) :
  stage_ok s -> data <> [] ->
  rx_buffer_pos s + length data <= RX_BUFFER_SIZE ->
  let o := uart_receive_buf data s in
  rx_buffer_pos s + length data
  = discarded (trace o) + delivered_bytes (handed (trace o))
    + rx_buffer_pos (after o).
Proof.
  intros Hok Hne Hroom. cbv zeta.
  destruct (uart_receive_buf_drain data s Hok Hne Hroom) as (D & Hok' & _).
  destruct (drain_summary _ _ _ _ _ D) as (_ & _ & Hacc & _).
  rewrite length_app, (length_staged s (stage_ok_fits s Hok)),
    (length_staged _ (stage_ok_fits _ Hok')) in Hacc.
  exact Hacc.
Qed.

Lemma accepted_bytes_accounted_witness :
  let o := uart_receive_buf (noise ++ encode sample_frame ++ [x0d; xf0])
                            half_fed in
  9 + 22
  = discarded (trace o) + delivered_bytes (handed (trace o))
    + rx_buffer_pos (after o).
Proof.
  refine (accepted_bytes_accounted (noise ++ encode sample_frame ++ [x0d; xf0])
            half_fed _ _ _).
  - split; [vm_compute; reflexivity | vm_compute; lia].
  - discriminate.
  - vm_compute. lia.
Defined.

(** ** A header that cannot be completed *)

Lemma stalled_app l c : stalled l -> stalled (l ++ c).
Proof.
  intros (H8 & Hs & Hn). unfold stalled, HEADER_SIZE in *.
  assert (A : firstn (length l) (l ++ c) = firstn (length l) l)
    by (rewrite firstn_app, Nat.sub_diag, firstn_0, app_nil_r; reflexivity).
  rewrite (load_le_agree _ _ _ A 4 0), (load_le_agree _ _ _ A 2 6) by lia.
  rewrite length_app. repeat split; auto. lia.
Qed.

Lemma scan_stalled l d :
  stalled l -> length l <= RX_BUFFER_SIZE -> scan l d = None.
Proof.
  intros (H8 & Hs & Hn) Hl. rewrite scan_eq.
  apply Nat.ltb_ge in H8. rewrite H8, Hs, Z.eqb_refl. cbn [negb]. cbv zeta.
  replace (length l <? HEADER_SIZE + Z.to_nat (load_le 2 6 l)) with true
    by (symmetry; apply Nat.ltb_lt; lia).
  reflexivity.
Qed.

(** X10. Once a valid signature is staged in front of a length field
    above 2040, no later byte is ever delivered or discarded: in every
    run that does not overflow, nothing is handed over, the shared state
    stays as it is and the staged bytes only grow.  Only the overflow
    reset ends this. *)
Theorem oversized_header_stalls (chunks : list (list byte)) (s : state) :
  stage_ok s -> stalled (staged s) ->
  no_overflow chunks s = true ->
  handed (fst (feed_all chunks s)) = []
  /\ staged (snd (feed_all chunks s)) = staged s ++ concat chunks
  /\ sh (snd (feed_all chunks s)) = sh s.
Proof.
  revert s. induction chunks as [|c cs IH]; intros s Hok Hst Hno;
    cbn [feed_all concat].
  - cbn [fst snd handed]. now rewrite app_nil_r.
  - cbn [no_overflow] in Hno. apply andb_prop in Hno as [Hroom Hno].
    apply Nat.leb_le in Hroom.
    assert (Hcall : handed (trace (uart_receive_buf c s)) = []
                    /\ staged (after (uart_receive_buf c s)) = staged s ++ c
                    /\ sh (after (uart_receive_buf c s)) = sh s
                    /\ stage_ok (after (uart_receive_buf c s))).
    { destruct (uart_receive_buf_cases c s Hok)
        as [(-> & E) | [(Hover & _) | (_ & _ & D & Hok' & _)]]; [| lia |].
      - rewrite E. cbn [trace after handed]. now rewrite app_nil_r.
      - assert (Hs : scan (staged s ++ c) (sh s) = None).
        { apply scan_stalled; [now apply stalled_app|].
          rewrite length_app, (length_staged s (stage_ok_fits s Hok)). lia. }
        destruct (drain_det _ _ _ _ _ D _ _ _ (drain_stop _ _ Hs))
          as (-> & -> & ->).
        auto. }
    destruct Hcall as (Hh & Hs1 & Hd1 & Hok1).
    destruct (IH (after (uart_receive_buf c s)) Hok1) as (Hh2 & Hs2 & Hd2);
      [rewrite Hs1; now apply stalled_app | exact Hno |].
    destruct (feed_all cs (after (uart_receive_buf c s))) as [evs s'].
    cbn [fst snd] in *.
    rewrite handed_app, Hh, Hh2, Hs2, Hs1, Hd2, Hd1, app_assoc. auto.
Qed.

Lemma oversized_header_stalls_witness :
  handed (fst (feed_all [encode sample_frame; encode state_update_12]
                        stalled_state)) = []
  /\ rx_buffer_pos (snd (feed_all [encode sample_frame; encode state_update_12]
                                  stalled_state)) = 29.
Proof.
  destruct (oversized_header_stalls
              [encode sample_frame; encode state_update_12] stalled_state)
    as (H1 & H2 & _).
  - split; [vm_compute; reflexivity | vm_compute; lia].
  - unfold stalled.
    replace (load_le 2 6 (staged stalled_state)) with 65535%Z
      by (vm_compute; reflexivity).
    split; [vm_compute; lia|]. split; [vm_compute; reflexivity|].
    unfold RX_BUFFER_SIZE, HEADER_SIZE. lia.
  - vm_compute. reflexivity.
  - split; [exact H1 | vm_compute; reflexivity].
Defined.

(** ** From the wire to the reader *)

(** One frame fed into an empty staging array is delivered, whatever the
    chunking. *)
Lemma feed_one_frame s f chunks :
  stage_ok s -> rx_buffer_pos s = 0 -> well_formed f ->
  concat chunks = encode f -> no_overflow chunks s = true ->
  sh (snd (feed_all chunks s)) = snd (deliver f (sh s)).
Proof.
  intros Hok Hpos W Hcat Hno.
  pose proof (staged_empty s Hpos) as E.
  destruct (feed_all_drain chunks s Hok) as (evs & D & _ & _); auto.
  { rewrite E. apply scan_short. cbn. unfold HEADER_SIZE. lia. }
  rewrite E, Hcat in D. cbn [app] in D.
  pose proof (drain_frames [f] (sh s) (Forall_cons _ W (Forall_nil _))) as D'.
  cbn [map concat deliver_all] in D'. rewrite app_nil_r in D'.
  destruct (drain_det _ _ _ _ _ D _ _ _ D') as (_ & _ & ->).
  now destruct (deliver f (sh s)).
Qed.

Lemma ring_empty_contents d :
  ring_ok d -> buffer_head d = buffer_tail d ->
  forall l, ring_contents d ++ l = l.
Proof.
  intros Hok E l. now rewrite (proj1 (ring_contents_empty d Hok) E).
Qed.

(** The copy loop moves the tail only. *)
Lemma read_loop_frame fault todo : forall k d,
  let r := read_loop todo fault k d in
  uart_buffer (r_after r) = uart_buffer d
  /\ buffer_head (r_after r) = buffer_head d
  /\ mirror (r_after r) = mirror d.
Proof.
  induction todo as [|todo IH]; intros k d; cbn [read_loop]; cbv zeta;
    [auto|].
  destruct (buffer_head d =? buffer_tail d); [auto|].
  destruct (fault k); [auto|].
  unfold dequeue_byte. cbn [r_after].
  destruct (IH (S k) (mkShared (uart_buffer d) (buffer_head d)
                        ((buffer_tail d + 1) mod BUF_SIZE)
                        (root_state d) (version d))) as (H1 & H2 & H3).
  rewrite H1, H2, H3. auto.
Qed.

(** X11. A well-formed frame of a type other than 0x0004 and of at most
    2047 bytes, fed in any chunking into an empty staging array while the
    ring is empty, comes out of a sufficiently large read exactly as it
    was on the wire, header included, and leaves the ring empty. *)
Theorem forwarded_frame_read_back (s : state) (f : frame)
        (chunks : list (list byte)) (nonblock : bool) (count : nat)
        (fault : nat -> bool) (w : wait_outcome) :
  stage_ok s -> rx_buffer_pos s = 0 ->
  ring_ok (sh s) -> buffer_head (sh s) = buffer_tail (sh s) ->
  well_formed f -> f_type f <> 4%Z ->
  length (encode f) <= BUF_SIZE - 1 ->
  concat chunks = encode f -> no_overflow chunks s = true ->
  (forall i, fault i = false) -> length (encode f) <= count ->
  let r := uart_misc_read nonblock count fault w (sh (snd (feed_all chunks s))) in
  r_user r = encode f
  /\ r_ret r = Z.of_nat (length (encode f))
  /\ buffer_head (r_after r) = buffer_tail (r_after r).
Proof.
  intros Hok Hpos Hring Hempty W Ht Hlen Hcat Hno Hf Hcount. cbv zeta.
  rewrite (feed_one_frame s f chunks Hok Hpos W Hcat Hno).
  destruct (deliver_ring f (sh s) Hring) as (Hok' & Hc).
  apply Z.eqb_neq in Ht. rewrite Ht, (ring_empty_contents _ Hring Hempty) in Hc.
  rewrite keep_last_small in Hc by exact Hlen.
  set (d := snd (deliver f (sh s))) in *.
  assert (Hne : buffer_head d <> buffer_tail d).
  { intros E. apply (ring_contents_empty d Hok') in E. rewrite Hc in E.
    apply (f_equal (@length byte)) in E. rewrite length_encode in E.
    cbn in E. unfold HEADER_SIZE in E. lia. }
  unfold uart_misc_read. apply Nat.eqb_neq in Hne. rewrite Hne.
  destruct (read_loop_fifo fault count 0 d Hok' Hf) as (Hu & Ha & Hr & Hok2).
  rewrite Hc in Hu, Ha. rewrite firstn_all2 in Hu by exact Hcount.
  rewrite skipn_all2 in Ha by exact Hcount.
  split; [exact Hu|]. split; [now rewrite Hr, Hu|].
  now apply (ring_contents_empty _ Hok2).
Qed.

Lemma forwarded_frame_read_back_witness :
  r_user (uart_misc_read true 64 (fun _ => false) Interrupted
            (sh (snd (feed_all (bytewise (encode sample_frame)) init_state))))
  = encode sample_frame.
Proof.
  refine (proj1 (forwarded_frame_read_back init_state sample_frame
                   (bytewise (encode sample_frame)) true 64 (fun _ => false)
                   Interrupted stage_ok_init eq_refl ring_ok_init eq_refl
                   _ _ _ _ _ (fun _ => eq_refl) _)).
  - split; cbn; lia.
  - discriminate.
  - vm_compute. lia.
  - apply concat_bytewise.
  - vm_compute. reflexivity.
  - vm_compute. lia.
Defined.

(** X12. The largest frame the staging array accepts, 2048 bytes, does
    not fit the ring, which keeps 2047: even with the ring empty its
    first byte is overwritten, and the reader gets the frame without the
    first byte of its signature. *)
Theorem largest_frame_loses_first_byte (s : state) (f : frame)
        (chunks : list (list byte)) (nonblock : bool) (count : nat)
        (fault : nat -> bool) (w : wait_outcome) :
  stage_ok s -> rx_buffer_pos s = 0 ->
  ring_ok (sh s) -> buffer_head (sh s) = buffer_tail (sh s) ->
  well_formed f -> f_type f <> 4%Z ->
  length (encode f) = RX_BUFFER_SIZE ->
  concat chunks = encode f -> no_overflow chunks s = true ->
  (forall i, fault i = false) -> BUF_SIZE - 1 <= count ->
  let d := sh (snd (feed_all chunks s)) in
  let r := uart_misc_read nonblock count fault w d in
  ring_contents d = skipn 1 (encode f)
  /\ r_user r = skipn 1 (encode f)
  /\ r_ret r = Z.of_nat (BUF_SIZE - 1).
Proof.
  intros Hok Hpos Hring Hempty W Ht Hlen Hcat Hno Hf Hcount. cbv zeta.
  rewrite (feed_one_frame s f chunks Hok Hpos W Hcat Hno).
  destruct (deliver_ring f (sh s) Hring) as (Hok' & Hc).
  apply Z.eqb_neq in Ht. rewrite Ht, (ring_empty_contents _ Hring Hempty) in Hc.
  unfold keep_last in Hc. rewrite Hlen in Hc.
  change (RX_BUFFER_SIZE - (BUF_SIZE - 1)) with 1 in Hc.
  set (d := snd (deliver f (sh s))) in *.
  assert (Hl : length (ring_contents d) = BUF_SIZE - 1).
  { rewrite Hc, length_skipn, Hlen. reflexivity. }
  assert (Hne : buffer_head d <> buffer_tail d).
  { intros E. apply (ring_contents_empty d Hok') in E. rewrite E in Hl.
    cbn [length] in Hl. unfold BUF_SIZE in Hl. lia. }
  unfold uart_misc_read. apply Nat.eqb_neq in Hne. rewrite Hne.
  destruct (read_loop_fifo fault count 0 d Hok' Hf) as (Hu & _ & Hr & _).
  rewrite firstn_all2 in Hu by lia.
  split; [exact Hc|]. split; [now rewrite Hu|]. now rewrite Hr, Hu, Hl.
Qed.

Lemma largest_frame_loses_first_byte_witness :
  ring_contents (sh (snd (feed_all [encode max_frame] init_state)))
  = skipn 1 (encode max_frame).
Proof.
  refine (proj1 (largest_frame_loses_first_byte init_state max_frame
                   [encode max_frame] true 4096 (fun _ => false) Interrupted
                   stage_ok_init eq_refl ring_ok_init eq_refl
                   _ _ _ _ _ (fun _ => eq_refl) _)).
  - split; cbn [max_frame f_type f_payload]; [lia | rewrite repeat_length; lia].
  - discriminate.
  - rewrite length_encode. cbn [max_frame f_payload].
    now rewrite repeat_length.
  - cbn [concat]. apply app_nil_r.
  - vm_compute. reflexivity.
  - unfold BUF_SIZE. lia.
Defined.

(** ** Reads *)

(** X13. A read that reaches the copy loop without a fault (the ring is
    not empty, or the call slept and was woken with the ring in state
    [d0]) returns the oldest unread bytes in order, as many as requested
    or available, whichever is less; the bytes behind them stay unread in
    order, and only the tail cursor moves. *)
Theorem read_returns_oldest (nonblock : bool) (count : nat)
        (fault : nat -> bool) (w : wait_outcome) (d d0 : shared) :
  ring_ok d0 -> (forall i, fault i = false) ->
  (buffer_head d <> buffer_tail d /\ d0 = d)
  \/ (buffer_head d = buffer_tail d /\ nonblock = false /\ w = Woken d0) ->
  let r := uart_misc_read nonblock count fault w d in
  r_user r = firstn count (ring_contents d0)
  /\ r_ret r = Z.of_nat (Nat.min count (unread d0))
  /\ ring_contents (r_after r) = skipn count (ring_contents d0)
  /\ ring_ok (r_after r)
  /\ uart_buffer (r_after r) = uart_buffer d0
  /\ buffer_head (r_after r) = buffer_head d0
  /\ mirror (r_after r) = mirror d0.
Proof.
  intros Hok Hf Hcase. cbv zeta.
  assert (E : uart_misc_read nonblock count fault w d
              = read_loop count fault 0 d0).
  { unfold uart_misc_read.
    destruct Hcase as [(Hne & ->) | (He & -> & ->)].
    - apply Nat.eqb_neq in Hne. now rewrite Hne.
    - apply Nat.eqb_eq in He. now rewrite He. }
  rewrite E.
  destruct (read_loop_fifo fault count 0 d0 Hok Hf) as (Hu & Ha & Hr & Hok').
  destruct (read_loop_frame fault count 0 d0) as (H1 & H2 & H3).
  repeat split; auto; try apply Hok'.
  rewrite Hr, Hu, length_firstn, length_ring_contents. reflexivity.
Qed.

Lemma read_returns_oldest_witness :
  let d := sh (after (uart_receive_buf (encode sample_frame) init_state)) in
  let r := uart_misc_read false 4 (fun _ => false) Interrupted d in
  r_user r = [x0d; xf0; xad; x0b] /\ r_ret r = 4%Z
  /\ ring_contents (r_after r) = skipn 4 (encode sample_frame).
Proof.
  intros d.
  destruct (read_returns_oldest false 4 (fun _ => false) Interrupted d d)
    as (H1 & H2 & H3 & _).
  - unfold ring_ok. vm_compute. repeat split; lia.
  - reflexivity.
  - left. split; [vm_compute; lia | reflexivity].
  - cbv zeta. rewrite H1, H2, H3. vm_compute. repeat split.
Defined.

Lemma unread_dequeue d :
  ring_ok d -> buffer_head d <> buffer_tail d ->
  unread d = S (unread (snd (dequeue_byte d))).
Proof.
  intros Hok Hne. pose proof (dequeue_byte_contents d Hok Hne) as H.
  apply (f_equal (@length byte)) in H.
  cbn [length] in H. now rewrite !length_ring_contents in H.
Qed.

Lemma read_loop_fault fault k : forall todo br d,
  ring_ok d -> k < todo -> k < unread d ->
  fault (br + k) = true ->
  (forall i, i < k -> fault (br + i) = false) ->
  let r := read_loop todo fault br d in
  r_ret r = (- EFAULT)%Z
  /\ r_user r = firstn k (ring_contents d)
  /\ ring_contents (r_after r) = skipn k (ring_contents d).
Proof.
  induction k as [|k IH]; intros todo br d Hok Htodo Hun Hk Hbefore;
    (destruct todo as [|todo]; [lia|]); cbn [read_loop];
    (destruct (Nat.eqb_spec (buffer_head d) (buffer_tail d)) as [E | E];
     [apply (unread_zero d Hok) in E; lia|]).
  - rewrite Nat.add_0_r in Hk. rewrite Hk. cbv zeta.
    cbn [r_ret r_user r_after firstn skipn]. auto.
  - assert (Hf0 : fault br = false)
      by (rewrite <- (Nat.add_0_r br); apply Hbefore; lia).
    rewrite Hf0.
    pose proof (dequeue_byte_contents d Hok E) as Hc.
    pose proof (dequeue_byte_ok d Hok) as Hok1.
    pose proof (unread_dequeue d Hok E) as Hu.
    destruct (dequeue_byte d) as [b d1]. cbn [fst snd] in *.
    destruct (IH todo (S br) d1 Hok1) as (Hr & Hus & Ha); try lia.
    { now rewrite Nat.add_succ_comm. }
    { intros i Hi. rewrite Nat.add_succ_comm. apply Hbefore. lia. }
    cbv zeta. cbn [r_ret r_user r_after].
    rewrite Hc, Hr, Hus, Ha. cbn [firstn skipn].
    split; [reflexivity|]. split; reflexivity.
Qed.

(** X14. When [put_user] faults first at index [k], before the request is
    served, the read returns [-EFAULT] although [k] bytes have already
    reached the caller's buffer; those [k] bytes have left the ring and
    are not offered again. *)
Theorem read_fault_loses_bytes (nonblock : bool) (count k : nat)
        (fault : nat -> bool) (w : wait_outcome) (d : shared) :
  ring_ok d -> k < count -> k < unread d -> first_fault fault k ->
  let r := uart_misc_read nonblock count fault w d in
  r_ret r = (- EFAULT)%Z
  /\ r_user r = firstn k (ring_contents d)
  /\ ring_contents (r_after r) = skipn k (ring_contents d)
  /\ unread (r_after r) = unread d - k.
Proof.
  intros Hok Hcount Hun [Hk Hbefore]. cbv zeta.
  assert (Hne : buffer_head d <> buffer_tail d).
  { intros E. apply (unread_zero d Hok) in E. lia. }
  unfold uart_misc_read. apply Nat.eqb_neq in Hne. rewrite Hne.
  destruct (read_loop_fault fault k count 0 d Hok Hcount Hun Hk Hbefore)
    as (Hr & Hu & Ha).
  repeat split; auto.
  rewrite <- !length_ring_contents, Ha. apply length_skipn.
Qed.

Lemma read_fault_loses_bytes_witness :
  let d := sh (after (uart_receive_buf (encode sample_frame) init_state)) in
  let r := uart_misc_read true 8 (fun i => 3 <=? i) Interrupted d in
  r_ret r = (- EFAULT)%Z /\ r_user r = [x0d; xf0; xad] /\ unread (r_after r) = 8.
Proof.
  intros d.
  destruct (read_fault_loses_bytes true 8 3 (fun i => 3 <=? i) Interrupted d)
    as (H1 & H2 & _ & H4).
  - unfold ring_ok. vm_compute. repeat split; lia.
  - lia.
  - vm_compute. lia.
  - split; [reflexivity|]. intros i Hi. apply Nat.leb_gt. exact Hi.
  - cbv zeta. rewrite H1, H2, H4. vm_compute. repeat split.
Defined.

Lemma read_loop_ret fault todo : forall br d,
  let r := read_loop todo fault br d in
  (Z.of_nat br <= r_ret r <= Z.of_nat (br + todo))%Z
  \/ r_ret r = (- EFAULT)%Z.
Proof.
  induction todo as [|todo IH]; intros br d; cbn [read_loop]; cbv zeta.
  - left. cbn [r_ret]. lia.
  - destruct (buffer_head d =? buffer_tail d); [left; cbn [r_ret]; lia|].
    destruct (fault br); [right; reflexivity|].
    destruct (dequeue_byte d) as [b d1]. cbn [r_ret].
    destruct (IH (S br) d1) as [H | H]; [left; lia | right; exact H].
Qed.

(** X15. A non-blocking read answers [-EAGAIN] exactly when the ring is
    empty, and then copies nothing and changes nothing; otherwise it
    returns a byte count between 0 and the request or [-EFAULT].  The
    outcome of a wait plays no part. *)
Theorem nonblocking_read_would_block (count : nat) (fault : nat -> bool)
        (w : wait_outcome) (d : shared) :
  let r := uart_misc_read true count fault w d in
  (buffer_head d = buffer_tail d -> r = mkRead (- EAGAIN) [] d)
  /\ (buffer_head d <> buffer_tail d ->
      r_ret r <> (- EAGAIN)%Z
      /\ ((0 <= r_ret r <= Z.of_nat count)%Z \/ r_ret r = (- EFAULT)%Z))
  /\ r = uart_misc_read true count fault Interrupted d.
Proof.
  cbv zeta. unfold uart_misc_read. split; [|split].
  - intros E. apply Nat.eqb_eq in E. now rewrite E.
  - intros E. apply Nat.eqb_neq in E. rewrite E.
    destruct (read_loop_ret fault count 0 d) as [H | H];
      cbn [Z.of_nat Nat.add] in H; unfold EAGAIN, EFAULT in *;
      (split; [lia | auto]).
  - now destruct (buffer_head d =? buffer_tail d).
Qed.

Lemma nonblocking_read_would_block_witness :
  uart_misc_read true 16 (fun _ => false) (Woken init_shared) init_shared
  = mkRead (- EAGAIN) [] init_shared.
Proof.
  exact (proj1 (nonblocking_read_would_block 16 (fun _ => false)
                  (Woken init_shared) init_shared) eq_refl).
Defined.

(** ** The attributes *)

Lemma show_u_length b :
  (2 <=? String.length (show_u b)) && (String.length (show_u b) <=? 4) = true.
Proof. destruct b; reflexivity. Qed.

Lemma show_u_parse b : parse_u (show_u b) = Some (Byte.to_N b).
Proof. destruct b; reflexivity. Qed.

Lemma show_u_newline b :
  String.get (String.length (show_u b) - 1) (show_u b)
  = Some (Ascii.ascii_of_nat 10).
Proof. destruct b; reflexivity. Qed.

(** X16. Whatever the byte, the text of [root_state] and of [version] is
    its decimal value followed by a newline: two to four characters, so
    the page-size limit of [scnprintf] never cuts it, and reading the
    number back gives the byte. *)
Theorem attribute_text_round_trip (d : shared) :
  parse_u (root_state_show d) = Some (Byte.to_N (root_state d))
  /\ parse_u (version_show d) = Some (Byte.to_N (version d))
  /\ 2 <= String.length (root_state_show d) <= 4
  /\ 2 <= String.length (version_show d) <= 4
  /\ String.get (String.length (root_state_show d) - 1) (root_state_show d)
     = Some (Ascii.ascii_of_nat 10)
  /\ String.get (String.length (version_show d) - 1) (version_show d)
     = Some (Ascii.ascii_of_nat 10).
Proof.
  unfold root_state_show, version_show.
  pose proof (show_u_length (root_state d)) as L1.
  pose proof (show_u_length (version d)) as L2.
  apply andb_prop in L1 as [A1 B1]. apply andb_prop in L2 as [A2 B2].
  apply Nat.leb_le in A1, B1, A2, B2.
  repeat split; auto using show_u_parse, show_u_newline.
Qed.

(** ** Probe and remove *)

(** X17. A probe returns 0 exactly when the device is accepted and every
    kernel call succeeds, and then it holds the five objects it created.
    In every other case it holds nothing when it returns: whatever it had
    created is released newest first.  A device that is not accepted
    causes no kernel call at all and gets [-ENODEV] or [-ENOTSUPP]; the
    global [serdev_device] is overwritten in every case. *)
Theorem probe_releases_on_failure (serdev : nat) (baud_rate : Z)
        (env : probe_env) :
  env_ok env ->
  let r := my_module_probe serdev baud_rate env in
  let ok := accepted env && all_succeed env in
  (p_ret r = 0%Z <-> ok = true)
  /\ held (p_calls r)
     = Some (if ok
             then [MiscDevice; SerdevPort; AttrGroup; SysfsDevice; EnclaveClass]
             else [])
  /\ (accepted env = false ->
      p_calls r = []
      /\ (p_ret r = (- ENODEV)%Z \/ p_ret r = (- ENOTSUPP)%Z))
  /\ p_serdev_device r = serdev.
Proof.
  destruct env as [ctrl start ops setb cc dc sg so mr].
  unfold env_ok, my_module_probe, accepted, all_succeed.
  cbn [has_ctrl mem_start has_ops has_set_baudrate class_create device_create
       sysfs_create_group serdev_device_open misc_register].
  intros [Hcc Hdc]. cbv zeta.
  destruct ctrl; cbn [negb andb];
    [|repeat split; auto; discriminate].
  destruct start as [start|]; [|repeat split; auto; discriminate].
  destruct (start =? UART3_BASE)%Z; cbn [negb andb];
    [|repeat split; auto; discriminate].
  destruct ops; cbn [negb andb]; [|repeat split; auto; discriminate].
  destruct setb; cbn [negb andb]; [|repeat split; auto; discriminate].
  destruct cc as [e|].
  { cbn [p_ret p_calls p_serdev_device]. repeat split; auto; try discriminate.
    intros ->. congruence. }
  destruct dc as [e|].
  { cbn [p_ret p_calls p_serdev_device]. repeat split; auto; try discriminate.
    intros ->. congruence. }
  destruct (Z.eqb_spec sg 0) as [-> | Hsg]; cbn [negb andb];
    [|repeat split; auto; try discriminate; congruence].
  destruct (Z.eqb_spec so 0) as [-> | Hso]; cbn [negb andb];
    [|repeat split; auto; try discriminate; congruence].
  destruct (Z.eqb_spec mr 0) as [-> | Hmr]; cbn [negb andb];
    repeat split; auto; try discriminate; congruence.
Qed.

Lemma probe_releases_on_failure_witness :
  let r := my_module_probe 3 9600 uart3_open_fails in
  p_ret r = (-16)%Z /\ held (p_calls r) = Some [].
Proof.
  destruct (probe_releases_on_failure 3 9600 uart3_open_fails) as (_ & H & _).
  - split; discriminate.
  - cbv zeta. split; [reflexivity | exact H].
Defined.

(** X18. A probe that returned 0 followed by [uart_serdev_remove] leaves
    no object behind: the remove gives the five objects back in the
    reverse order of their creation. *)
Theorem probe_then_remove_balanced (serdev : nat) (baud_rate : Z)
        (env : probe_env) :
  env_ok env ->
  p_ret (my_module_probe serdev baud_rate env) = 0%Z ->
  held (p_calls (my_module_probe serdev baud_rate env) ++ uart_serdev_remove)
  = Some []
  /\ p_calls (my_module_probe serdev baud_rate env)
     = [Acquire EnclaveClass; Acquire SysfsDevice; DevSetDrvdata;
        Acquire AttrGroup; SetClientOps; Acquire SerdevPort;
        SetBaudrate baud_rate; InitWaitqueueHead; Acquire MiscDevice].
Proof.
  destruct env as [ctrl start ops setb cc dc sg so mr].
  unfold env_ok, my_module_probe.
  cbn [has_ctrl mem_start has_ops has_set_baudrate class_create device_create
       sysfs_create_group serdev_device_open misc_register].
  intros [Hcc Hdc]. cbv zeta.
  destruct ctrl; cbn [negb p_ret]; [|discriminate].
  destruct start as [start|]; [|discriminate].
  destruct (start =? UART3_BASE)%Z; cbn [negb p_ret]; [|discriminate].
  destruct ops; cbn [negb p_ret]; [|discriminate].
  destruct setb; cbn [negb p_ret]; [|discriminate].
  destruct cc as [e|]; [cbn [p_ret]; congruence|].
  destruct dc as [e|]; [cbn [p_ret]; congruence|].
  destruct (Z.eqb_spec sg 0) as [-> | Hsg]; cbn [negb p_ret]; [|congruence].
  destruct (Z.eqb_spec so 0) as [-> | Hso]; cbn [negb p_ret]; [|congruence].
  destruct (Z.eqb_spec mr 0) as [-> | Hmr]; cbn [negb p_ret]; [|congruence].
  intros _. split; reflexivity.
Qed.

Lemma probe_then_remove_balanced_witness :
  held (p_calls (my_module_probe 3 115200 uart3_env) ++ uart_serdev_remove)
  = Some [].
Proof.
  refine (proj1 (probe_then_remove_balanced 3 115200 uart3_env _ eq_refl)).
  split; discriminate.
Defined.

(** ** Witnesses for two lemmas on the loop and on runs *)

Lemma deframe_loop_done_witness :
  loop_body (snd (deframe_loop 29
                    (first_call (noise ++ encode sample_frame ++ noise))))
  = None.
Proof.
  apply deframe_loop_done.
  - unfold fits. vm_compute. lia.
  - vm_compute. lia.
Defined.

Lemma bytewise_no_overflow_witness :
  no_overflow (bytewise (concat (map encode [max_frame; sample_frame])))
              init_state = true.
Proof.
  apply bytewise_no_overflow.
  - repeat constructor; cbn [max_frame f_type f_payload];
      rewrite ?repeat_length; cbn; lia.
  - repeat constructor; rewrite length_encode;
      cbn [max_frame sample_frame f_payload]; rewrite ?repeat_length;
      unfold HEADER_SIZE, RX_BUFFER_SIZE; cbn [length]; lia.
  - exact stage_ok_init.
  - reflexivity.
Defined.

(** ** Dropped bytes are logged *)

Lemma drops_app e1 e2 : drops (e1 ++ e2) = drops e1 + drops e2.
Proof.
  induction e1 as [|[[]|t p|] e1 IH]; cbn [app drops]; auto.
  now rewrite IH.
Qed.

Lemma enqueue_byte_drops b d :
  ring_ok d ->
  unread d + 1 = unread (snd (enqueue_byte b d)) + drops (fst (enqueue_byte b d)).
Proof.
  intros (_ & Hh & Ht). unfold enqueue_byte.
  destruct (Nat.eqb_spec ((buffer_head d + 1) mod BUF_SIZE) (buffer_tail d));
    cbn [fst snd drops]; unfold unread, BUF_SIZE in *;
    cbn [buffer_head buffer_tail]; mod_lia.
Qed.

Lemma enqueue_loop_drops rx n : forall i d,
  ring_ok d ->
  unread d + n
  = unread (snd (enqueue_loop rx i n d)) + drops (fst (enqueue_loop rx i n d)).
Proof.
  induction n as [|n IH]; intros i d Hok; cbn [enqueue_loop].
  - cbn [fst snd drops]. lia.
  - pose proof (enqueue_byte_drops (nth i rx x00) d Hok) as H1.
    pose proof (enqueue_byte_ok (nth i rx x00) d Hok) as Hok1.
    destruct (enqueue_byte (nth i rx x00) d) as [e1 d1]. cbn [fst snd] in *.
    specialize (IH (S i) d1 Hok1).
    destruct (enqueue_loop rx (S i) n d1) as [e2 d2]. cbn [fst snd] in *.
    rewrite drops_app. lia.
Qed.

Lemma deliver_drops f d :
  ring_ok d ->
  unread d + length (forwarded [(f_type f, f_payload f)])
  = unread (snd (deliver f d)) + drops (fst (deliver f d)).
Proof.
  intros Hok. rewrite forwarded_cons. cbn [fst]. unfold forwarded at 1.
  cbn [filter map concat]. rewrite app_nil_r, frame_of_pair.
  unfold deliver, dispatch. destruct (f_type f =? 4)%Z.
  - destruct (2 <=? length (f_payload f)); cbn [fst snd drops length];
      unfold unread; cbn [buffer_head buffer_tail]; lia.
  - pose proof (enqueue_loop_drops (encode f)
                  (HEADER_SIZE + length (f_payload f)) 0 d Hok) as H.
    destruct (enqueue_loop _ _ _ _) as [evs d']. cbn [fst snd drops] in *.
    rewrite drops_app, length_encode. cbn [drops]. lia.
Qed.

Lemma forwarded_app h1 h2 : forwarded (h1 ++ h2) = forwarded h1 ++ forwarded h2.
Proof.
  unfold forwarded. now rewrite filter_app, map_app, concat_app.
Qed.

Lemma drain_drops l d e r d' :
  drain l d e r d' -> ring_ok d ->
  ring_ok d'
  /\ unread d + length (forwarded (handed e)) = unread d' + drops e.
Proof.
  induction 1 as [l d Hs | l d e l1 d1 es l2 d2 Hs _ IH]; intros Hok.
  - change (forwarded (handed [])) with (@nil byte). cbn [length drops].
    split; [exact Hok | lia].
  - destruct (scan_cases _ _ _ _ _ Hs)
      as [(-> & -> & -> & _) | (f & W & -> & -> & ->)].
    + destruct (IH Hok) as (Hok' & H). cbn [app handed drops].
      split; assumption.
    + destruct (deliver_ring f d Hok) as (Hok1 & _).
      destruct (IH Hok1) as (Hok' & H).
      pose proof (deliver_drops f d Hok) as H1.
      pose proof (handed_dispatch (f_type f) (length (f_payload f))
                    (encode f) d) as Hh.
      fold (deliver f d) in Hh.
      cbn [app handed drops]. rewrite handed_app, drops_app, Hh.
      cbn [app].
      change ((f_type f, f_payload f) :: handed es)
        with ([(f_type f, f_payload f)] ++ handed es).
      rewrite forwarded_app, length_app.
      split; [exact Hok'|]. lia.
Qed.

(** X19. In any run, every byte the ring loses is logged once: the bytes
    unread at the start plus the bytes forwarded during the run equal the
    bytes unread at the end plus the number of ring-overflow warnings. *)
Theorem ring_drops_are_logged (chunks : list (list byte)) (s : state) :
  stage_ok s -> ring_ok (sh s) ->
  unread (sh s) + length (forwarded (handed (fst (feed_all chunks s))))
  = unread (sh (snd (feed_all chunks s))) + drops (fst (feed_all chunks s)).
Proof.
  revert s. induction chunks as [|c cs IH]; intros s Hok Hring;
    cbn [feed_all].
  - cbn [fst snd]. change (forwarded (handed [])) with (@nil byte).
    cbn [length drops]. lia.
  - assert (Hcall : ring_ok (sh (after (uart_receive_buf c s)))
                    /\ unread (sh s)
                       + length (forwarded (handed (trace (uart_receive_buf c s))))
                       = unread (sh (after (uart_receive_buf c s)))
                         + drops (trace (uart_receive_buf c s))).
    { destruct (uart_receive_buf_cases c s Hok)
        as [(_ & ->) | [(_ & ->) | (_ & _ & D & _)]].
      - cbn [trace after sh].
        change (forwarded (handed [Printk InvalidParams])) with (@nil byte).
        cbn [length drops]. split; [exact Hring | lia].
      - cbn [trace after sh].
        change (forwarded (handed [Printk RxOverflow])) with (@nil byte).
        cbn [length drops]. split; [exact Hring | lia].
      - exact (drain_drops _ _ _ _ _ D Hring). }
    destruct Hcall as (Hring1 & H1).
    destruct (call_summary c s Hok) as (Hok1 & _).
    specialize (IH _ Hok1 Hring1).
    destruct (feed_all cs (after (uart_receive_buf c s))) as [evs s'].
    cbn [fst snd] in *.
    rewrite handed_app, forwarded_app, length_app, drops_app. lia.
Qed.

Lemma ring_drops_are_logged_witness :
  drops (fst (feed_all [encode max_frame; encode sample_frame] init_state))
  = 12.
Proof.
  pose proof (ring_drops_are_logged [encode max_frame; encode sample_frame]
                init_state stage_ok_init ring_ok_init) as H.
  replace (unread (sh init_state)) with 0 in H by reflexivity.
  replace (length (forwarded (handed (fst (feed_all
             [encode max_frame; encode sample_frame] init_state)))))
    with 2059 in H by (vm_compute; reflexivity).
  replace (unread (sh (snd (feed_all [encode max_frame; encode sample_frame]
                                     init_state))))
    with 2047 in H by (vm_compute; reflexivity).
  lia.
Defined.
